(** * onos-topo device store: versioned CRUD over a replicated map

    A shallow embedding of the device store of package [device] (the
    [atomixStore] with its [Load], [Store], [Delete], [List] and [Watch]
    methods, the [decodeDevice] helper and the [EventType] constants),
    together with the protobuf wire codec that [proto.Marshal] and
    [proto.Unmarshal] run on the [Device] message, and the messages of
    the northbound API ([device.pb.go]) on the same codec.

    Conventions
    - Go [string] is [string] (one [ascii] per byte), [[]byte] is
      [list byte];
    - [uint64] and [int64] are [Z] with the wrap-around of a conversion
      written out ([GoInt.uint64], [GoInt.int64]);
    - a Go [(T, error)] result is [Result T];
    - a [*Device] that the callee mutates is returned next to the result;
    - the [_map.Map] interface of the atomix client is the class [Map]. *)

From Stdlib Require Import ZArith Lia Bool.
From Stdlib Require Import Strings.Byte.
From stdpp Require Import base option list strings pretty gmap fin_maps.

Local Open Scope Z_scope.

(* ===================================================================== *)
(** ** Machine integers and bytes *)
(* ===================================================================== *)

Module GoInt.

(** [uint64(x)]: reduction modulo 2^64. *)
Definition uint64 (z : Z) : Z := z mod 2 ^ 64.

(** [int64(x)]: two's complement reading of the low 64 bits. *)
Definition int64 (z : Z) : Z := (z + 2 ^ 63) mod 2 ^ 64 - 2 ^ 63.

Definition uint64_range (z : Z) : Prop := 0 <= z < 2 ^ 64.
Definition int64_range (z : Z) : Prop := - 2 ^ 63 <= z < 2 ^ 63.

(** [byte(x)] and [uint64(b)] for a byte [b]. *)
Definition byte_to_Z (b : byte) : Z := Z.of_N (Byte.to_N b).

Definition byte_of_Z (z : Z) : byte :=
  match Byte.of_N (Z.to_N (z mod 256)) with
  | Some b => b
  | None => "000"%byte
  end.

End GoInt.

Import GoInt.

(* ===================================================================== *)
(** ** Results *)
(* ===================================================================== *)

(** What [proto.Unmarshal] can report. *)
Inductive decode_failure : Type :=
  | ErrUnexpectedEOF            (* io.ErrUnexpectedEOF: truncated input *)
  | ErrBadWireType (wire : Z)   (* a wire type that cannot be skipped *)
  | ErrInvalidUTF8 (field : string).

(** The error values that cross the store's interface. *)
Inductive error : Type :=
  | EncodeError (field : string)     (* proto.Marshal: invalid UTF-8 in [field] *)
  | DecodeError (why : decode_failure)
  | ConflictError                    (* the map's write condition failed *)
  | TimeoutError                     (* context deadline exceeded *)
  | MapError (msg : string).         (* any other failure of the map *)

Inductive Result (A : Type) : Type :=
  | Ok (a : A)
  | Err (e : error).
Arguments Ok {A} a.
Arguments Err {A} e.

(* ===================================================================== *)
(** ** Varints (proto.EncodeVarint, proto.DecodeVarint) *)
(* ===================================================================== *)

Module Wire.

(** [for n = 0; x > 127; n++ { buf[n] = 0x80 | uint8(x&0x7F); x >>= 7 }
    buf[n] = uint8(x)].  A [uint64] leaves the loop after at most nine
    rounds, which is what [maxVarintBytes = 10] accounts for. *)
Fixpoint encodeVarint_loop (rounds : nat) (x : Z) : list byte :=
  match rounds with
  | O => [byte_of_Z x]
  | S r =>
      if 127 <? x
      then byte_of_Z (Z.lor 128 (Z.land x 127)) :: encodeVarint_loop r (Z.shiftr x 7)
      else [byte_of_Z x]
  end.

Definition EncodeVarint (x : Z) : list byte := encodeVarint_loop 9 x.

(** [for shift := uint(0); shift < 64; shift += 7 { ... x |= (b & 0x7F)
    << shift; if (b & 0x80) == 0 { return x, n } }; return 0, 0].
    [None] stands for [n == 0]; otherwise the value and the unread rest. *)
Fixpoint decodeVarint_loop (rounds : nat) (shift x : Z) (buf : list byte)
  : option (Z * list byte) :=
  match rounds with
  | O => None
  | S r =>
      match buf with
      | [] => None
      | b :: rest =>
          let x' := Z.lor x (uint64 (Z.shiftl (Z.land (byte_to_Z b) 127) shift)) in
          if Z.land (byte_to_Z b) 128 =? 0
          then Some (x', rest)
          else decodeVarint_loop r (shift + 7) x' rest
      end
  end.

Definition DecodeVarint (buf : list byte) : option (Z * list byte) :=
  decodeVarint_loop 10 0 0 buf.

End Wire.

Import Wire.

(* ===================================================================== *)
(** ** The Device message *)
(* ===================================================================== *)

(** The messages as protoc generates them ([device.pb.go]): every declared
    field, plus [XXX_unrecognized] for the fields a decoder did not know.
    A [*Credentials] / [*TlsConfig] pointer is an [option]. *)
Record Credentials : Type := mkCredentials {
  User : string;                           (* bytes,1 *)
  Password : string;                       (* bytes,2 *)
  Credentials_unrecognized : list byte
}.

Record TlsConfig : Type := mkTlsConfig {
  CaCert : string;                         (* bytes,3 *)
  Cert : string;                           (* bytes,4 *)
  Key : string;                            (* bytes,5 *)
  Plain : bool;                            (* varint,6 *)
  Insecure : bool;                         (* varint,7 *)
  TlsConfig_unrecognized : list byte
}.

(** Modelled from the spec: the declaration of [device.Device], the type
    the store works on, is not among the sources; the store reads and
    writes its fields [ID] (of the string type [ID]) and [Revision] (of the
    integer type [Revision], which section 3 of the specification makes
    unsigned).  The remaining fields and their numbers 3..8 are those of
    [device.proto]; their Go types are those of the generated [Device]
    struct of [device.pb.go], where the timeout is an [int64].  [ID] and
    [Revision] take the numbers 1 and 2, as [id] and [version] do in
    [ObjectMetadata]. *)
Record Device : Type := mkDevice {
  ID : string;                             (* bytes,1 *)
  Revision : Z;                            (* varint,2: uint64 *)
  Address : string;                        (* bytes,3 *)
  Target : string;                         (* bytes,4 *)
  SoftwareVersion : string;                (* bytes,5 *)
  Timeout : Z;                             (* varint,6: int64 *)
  Creds : option Credentials;              (* bytes,7: the field Credentials *)
  Tls : option TlsConfig;                  (* bytes,8 *)
  XXX_unrecognized : list byte
}.

Definition Credentials_zero : Credentials := mkCredentials "" "" [].
Definition TlsConfig_zero : TlsConfig := mkTlsConfig "" "" "" false false [].
(** [&Device{}] *)
Definition Device_zero : Device := mkDevice "" 0 "" "" "" 0 None None [].

Definition set_ID (v : string) (d : Device) : Device :=
  mkDevice v (Revision d) (Address d) (Target d) (SoftwareVersion d)
           (Timeout d) (Creds d) (Tls d) (XXX_unrecognized d).
Definition set_Revision (v : Z) (d : Device) : Device :=
  mkDevice (ID d) v (Address d) (Target d) (SoftwareVersion d)
           (Timeout d) (Creds d) (Tls d) (XXX_unrecognized d).
Definition set_Address (v : string) (d : Device) : Device :=
  mkDevice (ID d) (Revision d) v (Target d) (SoftwareVersion d)
           (Timeout d) (Creds d) (Tls d) (XXX_unrecognized d).
Definition set_Target (v : string) (d : Device) : Device :=
  mkDevice (ID d) (Revision d) (Address d) v (SoftwareVersion d)
           (Timeout d) (Creds d) (Tls d) (XXX_unrecognized d).
Definition set_SoftwareVersion (v : string) (d : Device) : Device :=
  mkDevice (ID d) (Revision d) (Address d) (Target d) v
           (Timeout d) (Creds d) (Tls d) (XXX_unrecognized d).
Definition set_Timeout (v : Z) (d : Device) : Device :=
  mkDevice (ID d) (Revision d) (Address d) (Target d) (SoftwareVersion d)
           v (Creds d) (Tls d) (XXX_unrecognized d).
Definition set_Creds (v : option Credentials) (d : Device) : Device :=
  mkDevice (ID d) (Revision d) (Address d) (Target d) (SoftwareVersion d)
           (Timeout d) v (Tls d) (XXX_unrecognized d).
Definition set_Tls (v : option TlsConfig) (d : Device) : Device :=
  mkDevice (ID d) (Revision d) (Address d) (Target d) (SoftwareVersion d)
           (Timeout d) (Creds d) v (XXX_unrecognized d).
Definition set_XXX_unrecognized (v : list byte) (d : Device) : Device :=
  mkDevice (ID d) (Revision d) (Address d) (Target d) (SoftwareVersion d)
           (Timeout d) (Creds d) (Tls d) v.

Definition set_User (v : string) (c : Credentials) : Credentials :=
  mkCredentials v (Password c) (Credentials_unrecognized c).
Definition set_Password (v : string) (c : Credentials) : Credentials :=
  mkCredentials (User c) v (Credentials_unrecognized c).
Definition set_Credentials_unrecognized (v : list byte) (c : Credentials) : Credentials :=
  mkCredentials (User c) (Password c) v.

Definition set_CaCert (v : string) (t : TlsConfig) : TlsConfig :=
  mkTlsConfig v (Cert t) (Key t) (Plain t) (Insecure t) (TlsConfig_unrecognized t).
Definition set_Cert (v : string) (t : TlsConfig) : TlsConfig :=
  mkTlsConfig (CaCert t) v (Key t) (Plain t) (Insecure t) (TlsConfig_unrecognized t).
Definition set_Key (v : string) (t : TlsConfig) : TlsConfig :=
  mkTlsConfig (CaCert t) (Cert t) v (Plain t) (Insecure t) (TlsConfig_unrecognized t).
Definition set_Plain (v : bool) (t : TlsConfig) : TlsConfig :=
  mkTlsConfig (CaCert t) (Cert t) (Key t) v (Insecure t) (TlsConfig_unrecognized t).
Definition set_Insecure (v : bool) (t : TlsConfig) : TlsConfig :=
  mkTlsConfig (CaCert t) (Cert t) (Key t) (Plain t) v (TlsConfig_unrecognized t).
Definition set_TlsConfig_unrecognized (v : list byte) (t : TlsConfig) : TlsConfig :=
  mkTlsConfig (CaCert t) (Cert t) (Key t) (Plain t) (Insecure t) v.

(* ===================================================================== *)
(** ** The wire codec (proto.Marshal, proto.Unmarshal) *)
(* ===================================================================== *)

(** The table-driven proto3 codec that the generated [XXX_Marshal] and
    [XXX_Unmarshal] methods call into, specialised to the three messages a
    [Device] is made of. *)
Module Proto.

Definition WireVarint : Z := 0.
Definition WireFixed64 : Z := 1.
Definition WireBytes : Z := 2.
Definition WireStartGroup : Z := 3.
Definition WireEndGroup : Z := 4.
Definition WireFixed32 : Z := 5.

(** [uint64(tag)<<3 | uint64(wire)] *)
Definition wiretag (tag wire : Z) : Z := Z.lor (Z.shiftl tag 3) wire.

Definition between (lo hi : Z) (b : byte) : bool :=
  (lo <=? byte_to_Z b) && (byte_to_Z b <=? hi).

(** [utf8.Valid]: ASCII, or a lead byte with the continuation bytes that
    the [first] and [acceptRanges] tables of [unicode/utf8] allow. *)
Fixpoint utf8_Valid (p : list byte) : bool :=
  match p with
  | [] => true
  | b0 :: t0 =>
      let c := byte_to_Z b0 in
      if c <? 128 then utf8_Valid t0
      else if (194 <=? c) && (c <=? 223) then
        match t0 with
        | b1 :: t1 => between 128 191 b1 && utf8_Valid t1
        | _ => false
        end
      else if (224 <=? c) && (c <=? 239) then
        match t0 with
        | b1 :: b2 :: t2 =>
            between (if c =? 224 then 160 else 128)
                    (if c =? 237 then 159 else 191) b1
            && between 128 191 b2 && utf8_Valid t2
        | _ => false
        end
      else if (240 <=? c) && (c <=? 244) then
        match t0 with
        | b1 :: b2 :: b3 :: t3 =>
            between (if c =? 240 then 144 else 128)
                    (if c =? 244 then 143 else 191) b1
            && between 128 191 b2 && between 128 191 b3 && utf8_Valid t3
        | _ => false
        end
      else false
  end.

Definition ValidString (s : string) : bool :=
  utf8_Valid (String.list_byte_of_string s).

(** *** Encoding *)

(** What a field marshaler hands back next to the grown buffer: [nil],
    the sentinel [errInvalidUTF8], or an error that ends the call. *)
Inductive marshal_status : Type :=
  | MarshalOk
  | MarshalInvalidUTF8
  | MarshalFailed (e : error).

Definition marshaler (A : Type) : Type := list byte -> A -> list byte * marshal_status.

Record marshalFieldInfo (A : Type) : Type := mkMarshalField {
  mf_name : string;
  mf_marshaler : marshaler A
}.
Arguments mkMarshalField {A}.
Arguments mf_name {A}.
Arguments mf_marshaler {A}.

Record marshalInfo (A : Type) : Type := mkMarshalInfo {
  mi_typ : string;                       (* the registered message name *)
  mi_fields : list (marshalFieldInfo A); (* sorted by tag *)
  mi_unrecognized : A -> list byte
}.
Arguments mkMarshalInfo {A}.
Arguments mi_typ {A}.
Arguments mi_fields {A}.
Arguments mi_unrecognized {A}.

Definition appendUTF8StringValueNoZero {A} (get : A -> string) (wt : Z)
  : marshaler A := fun b m =>
  let v := get m in
  if String.eqb v "" then (b, MarshalOk)
  else
    let raw := String.list_byte_of_string v in
    let b' := b ++ EncodeVarint wt ++ EncodeVarint (Z.of_nat (length raw)) ++ raw in
    (b', if ValidString v then MarshalOk else MarshalInvalidUTF8).

(** [appendVarint64ValueNoZero] ([uint64]) and [appendVarintS64ValueNoZero]
    ([int64], written as [uint64(v)]). *)
Definition appendVarint64ValueNoZero {A} (get : A -> Z) (wt : Z)
  : marshaler A := fun b m =>
  let v := get m in
  if v =? 0 then (b, MarshalOk)
  else (b ++ EncodeVarint wt ++ EncodeVarint (uint64 v), MarshalOk).

Definition appendBoolValueNoZero {A} (get : A -> bool) (wt : Z)
  : marshaler A := fun b m =>
  if get m then (b ++ EncodeVarint wt ++ [byte_of_Z 1], MarshalOk)
  else (b, MarshalOk).

(** [for _, f := range u.fields { b, err = f.marshaler(b, ...) ... }]:
    an invalid string is remembered in [errLater] and encoding goes on;
    any other error returns at once. *)
Fixpoint marshal_fields {A} (typ : string) (fields : list (marshalFieldInfo A))
    (b : list byte) (m : A) (errLater : option error)
  : list byte * error + list byte * option error :=
  match fields with
  | [] => inr (b, errLater)
  | f :: fs =>
      match mf_marshaler f b m with
      | (b', MarshalOk) => marshal_fields typ fs b' m errLater
      | (b', MarshalInvalidUTF8) =>
          marshal_fields typ fs b' m
            (match errLater with
             | None => Some (EncodeError (typ +:+ "." +:+ mf_name f))
             | Some _ => errLater
             end)
      | (b', MarshalFailed e) => inl (b', e)
      end
  end.

(** [u.marshal(b, ptr, deterministic)]: the fields, then the bytes of the
    unknown fields kept from an earlier decoding. *)
Definition marshal {A} (u : marshalInfo A) (b : list byte) (m : A)
  : list byte * option error :=
  match marshal_fields (mi_typ u) (mi_fields u) b m None with
  | inl (b', e) => (b', Some e)
  | inr (b', errLater) => (b' ++ mi_unrecognized u m, errLater)
  end.

(** [makeMessageMarshaler]: nothing for a nil pointer; otherwise the tag,
    the size of the nested message and its bytes. *)
Definition appendMessagePtr {A B} (sub : marshalInfo B) (get : A -> option B) (wt : Z)
  : marshaler A := fun b m =>
  match get m with
  | None => (b, MarshalOk)
  | Some p =>
      let '(body, err) := marshal sub [] p in
      let b' := b ++ EncodeVarint wt ++ EncodeVarint (Z.of_nat (length body)) ++ body in
      (b', match err with None => MarshalOk | Some e => MarshalFailed e end)
  end.

Definition Credentials_marshalInfo : marshalInfo Credentials :=
  mkMarshalInfo "topo.device.Credentials"
    [ mkMarshalField "user" (appendUTF8StringValueNoZero User (wiretag 1 WireBytes));
      mkMarshalField "password" (appendUTF8StringValueNoZero Password (wiretag 2 WireBytes)) ]
    Credentials_unrecognized.

Definition TlsConfig_marshalInfo : marshalInfo TlsConfig :=
  mkMarshalInfo "topo.device.TlsConfig"
    [ mkMarshalField "caCert" (appendUTF8StringValueNoZero CaCert (wiretag 3 WireBytes));
      mkMarshalField "cert" (appendUTF8StringValueNoZero Cert (wiretag 4 WireBytes));
      mkMarshalField "key" (appendUTF8StringValueNoZero Key (wiretag 5 WireBytes));
      mkMarshalField "plain" (appendBoolValueNoZero Plain (wiretag 6 WireVarint));
      mkMarshalField "insecure" (appendBoolValueNoZero Insecure (wiretag 7 WireVarint)) ]
    TlsConfig_unrecognized.

Definition Device_marshalInfo : marshalInfo Device :=
  mkMarshalInfo "topo.device.Device"
    [ mkMarshalField "id" (appendUTF8StringValueNoZero ID (wiretag 1 WireBytes));
      mkMarshalField "revision" (appendVarint64ValueNoZero Revision (wiretag 2 WireVarint));
      mkMarshalField "address" (appendUTF8StringValueNoZero Address (wiretag 3 WireBytes));
      mkMarshalField "target" (appendUTF8StringValueNoZero Target (wiretag 4 WireBytes));
      mkMarshalField "software_version"
        (appendUTF8StringValueNoZero SoftwareVersion (wiretag 5 WireBytes));
      mkMarshalField "timeout" (appendVarint64ValueNoZero Timeout (wiretag 6 WireVarint));
      mkMarshalField "credentials"
        (appendMessagePtr Credentials_marshalInfo Creds (wiretag 7 WireBytes));
      mkMarshalField "tls" (appendMessagePtr TlsConfig_marshalInfo Tls (wiretag 8 WireBytes)) ]
    XXX_unrecognized.

(** *** Decoding *)

(** What a field unmarshaler hands back: the unread rest and the updated
    message with a nil error or with [errInvalidUTF8];
    [errInternalBadWireType]; or an error that ends the call. *)
Inductive field_result (A : Type) : Type :=
  | Decoded (rest : list byte) (m : A)
  | DecodedInvalidUTF8 (rest : list byte) (m : A)
  | BadWireType
  | Failed (e : decode_failure).
Arguments Decoded {A}.
Arguments DecodedInvalidUTF8 {A}.
Arguments BadWireType {A}.
Arguments Failed {A}.

Definition unmarshaler (A : Type) : Type := list byte -> A -> Z -> field_result A.

Record unmarshalInfo (A : Type) : Type := mkUnmarshalInfo {
  ui_typ : string;
  ui_dense : Z -> option (string * unmarshaler A);   (* by field number *)
  ui_unrecognized : A -> list byte;
  ui_set_unrecognized : list byte -> A -> A
}.
Arguments mkUnmarshalInfo {A}.
Arguments ui_typ {A}.
Arguments ui_dense {A}.
Arguments ui_unrecognized {A}.
Arguments ui_set_unrecognized {A}.

(** [findEndGroup]: walks the fields of an unknown group until the end
    marker that closes it; [None] is the [-1, -1] of a malformed group. *)
Fixpoint findEndGroup (fuel : nat) (depth : nat) (b : list byte) : option (list byte) :=
  match fuel with
  | O => None
  | S fuel' =>
      match DecodeVarint b with
      | None => None
      | Some (x, b1) =>
          let w := Z.land x 7 in
          if w =? WireVarint then
            match DecodeVarint b1 with
            | None => None
            | Some (_, b2) => findEndGroup fuel' depth b2
            end
          else if w =? WireFixed32 then
            if (length b1 <? 4)%nat then None else findEndGroup fuel' depth (drop 4 b1)
          else if w =? WireFixed64 then
            if (length b1 <? 8)%nat then None else findEndGroup fuel' depth (drop 8 b1)
          else if w =? WireBytes then
            match DecodeVarint b1 with
            | None => None
            | Some (n, b2) =>
                if Z.of_nat (length b2) <? n then None
                else findEndGroup fuel' depth (drop (Z.to_nat n) b2)
            end
          else if w =? WireStartGroup then findEndGroup fuel' (S depth) b1
          else if w =? WireEndGroup then
            match depth with
            | O | S O => Some b1
            | S d => findEndGroup fuel' d b1
            end
          else None
      end
  end.

(** [skipField(b, wire)]: the rest after one field of wire type [wire]. *)
Definition skipField (b : list byte) (wire : Z) : decode_failure + list byte :=
  if wire =? WireVarint then
    match DecodeVarint b with
    | None => inl ErrUnexpectedEOF
    | Some (_, b1) => inr b1
    end
  else if wire =? WireFixed32 then
    if (length b <? 4)%nat then inl ErrUnexpectedEOF else inr (drop 4 b)
  else if wire =? WireFixed64 then
    if (length b <? 8)%nat then inl ErrUnexpectedEOF else inr (drop 8 b)
  else if wire =? WireBytes then
    match DecodeVarint b with
    | None => inl ErrUnexpectedEOF
    | Some (n, b1) =>
        if Z.of_nat (length b1) <? n then inl ErrUnexpectedEOF
        else inr (drop (Z.to_nat n) b1)
    end
  else if wire =? WireStartGroup then
    match findEndGroup (length b) 1 b with
    | None => inl ErrUnexpectedEOF
    | Some b1 => inr b1
    end
  else inl (ErrBadWireType wire).

(** One round of the loop of [u.unmarshal(m, b)], on a non-empty [b]:
    either the loop goes on with the rest, or the call returns. *)
Inductive round (A : Type) : Type :=
  | Continue (m : A) (rest : list byte) (errLater : option decode_failure)
  | Return (e : decode_failure).
Arguments Continue {A}.
Arguments Return {A}.

Definition unmarshal_round {A} (u : unmarshalInfo A) (m : A) (b : list byte)
    (errLater : option decode_failure) : round A :=
  (* Read tag and wire type. *)
  match DecodeVarint b with
  | None => Return ErrUnexpectedEOF
  | Some (x, b1) =>
      let tag := Z.shiftr x 3 in
      let wire := Z.land x 7 in
      (* Unknown tag, or a fragment with a bad wire type: skipped, and
         kept in XXX_unrecognized. *)
      let unknown :=
        match skipField b1 wire with
        | inl e => Return e
        | inr b2 =>
            let raw := take (length b1 - length b2) b1 in
            let z := ui_unrecognized u m ++ EncodeVarint (wiretag tag wire) ++ raw in
            Continue (ui_set_unrecognized u z m) b2 errLater
        end in
      (* Dispatch on the tag to one of the unmarshal* functions. *)
      match ui_dense u tag with
      | Some (name, fn) =>
          match fn b1 m wire with
          | Decoded b2 m' => Continue m' b2 errLater
          | DecodedInvalidUTF8 b2 m' =>
              Continue m' b2
                (match errLater with
                 | None => Some (ErrInvalidUTF8 (ui_typ u +:+ "." +:+ name))
                 | Some _ => errLater
                 end)
          | BadWireType => unknown
          | Failed e => Return e
          end
      | None => unknown
      end
  end.

(** [for len(b) > 0 { ... }; return errLater].  Every round reads at
    least the byte of a tag, so [length b] rounds are enough; [fuel]
    counts them. *)
Fixpoint unmarshal_loop {A} (u : unmarshalInfo A) (fuel : nat) (m : A)
    (b : list byte) (errLater : option decode_failure) : decode_failure + A :=
  match b with
  | [] =>
      match errLater with
      | Some e => inl e
      | None => inr m
      end
  | _ :: _ =>
      match fuel with
      | O => inl ErrUnexpectedEOF
      | S fuel' =>
          match unmarshal_round u m b errLater with
          | Continue m' b' errLater' => unmarshal_loop u fuel' m' b' errLater'
          | Return e => inl e
          end
      end
  end.

Definition unmarshal {A} (u : unmarshalInfo A) (m : A) (b : list byte)
  : decode_failure + A :=
  unmarshal_loop u (length b) m b None.

Definition unmarshalUTF8StringValue {A} (set : string -> A -> A) : unmarshaler A :=
  fun b m w =>
  if negb (w =? WireBytes) then BadWireType
  else
    match DecodeVarint b with
    | None => Failed ErrUnexpectedEOF
    | Some (x, b1) =>
        if Z.of_nat (length b1) <? x then Failed ErrUnexpectedEOF
        else
          let v := String.string_of_list_byte (take (Z.to_nat x) b1) in
          if ValidString v
          then Decoded (drop (Z.to_nat x) b1) (set v m)
          else DecodedInvalidUTF8 (drop (Z.to_nat x) b1) (set v m)
    end.

(** [unmarshalUint64Value], and [unmarshalInt64Value] with [conv :=
    int64]. *)
Definition unmarshalVarintValue {A} (conv : Z -> Z) (set : Z -> A -> A)
  : unmarshaler A := fun b m w =>
  if negb (w =? WireVarint) then BadWireType
  else
    match DecodeVarint b with
    | None => Failed ErrUnexpectedEOF
    | Some (x, b1) => Decoded b1 (set (conv x) m)
    end.

Definition unmarshalBoolValue {A} (set : bool -> A -> A) : unmarshaler A :=
  fun b m w =>
  if negb (w =? WireVarint) then BadWireType
  else
    match DecodeVarint b with
    | None => Failed ErrUnexpectedEOF
    | Some (x, b1) => Decoded b1 (set (negb (x =? 0)) m)
    end.

(** [makeUnmarshalMessagePtr]: a nil pointer is allocated first, then the
    nested bytes are merged into the message it points to. *)
Definition unmarshalMessagePtr {A B} (sub : unmarshalInfo B) (zero : B)
    (get : A -> option B) (set : option B -> A -> A) : unmarshaler A :=
  fun b m w =>
  if negb (w =? WireBytes) then BadWireType
  else
    match DecodeVarint b with
    | None => Failed ErrUnexpectedEOF
    | Some (x, b1) =>
        if Z.of_nat (length b1) <? x then Failed ErrUnexpectedEOF
        else
          let v := match get m with Some p => p | None => zero end in
          match unmarshal sub v (take (Z.to_nat x) b1) with
          | inl e => Failed e
          | inr v' => Decoded (drop (Z.to_nat x) b1) (set (Some v') m)
          end
    end.

Definition Credentials_unmarshalInfo : unmarshalInfo Credentials :=
  mkUnmarshalInfo "topo.device.Credentials"
    (fun tag =>
       if tag =? 1 then Some ("user", unmarshalUTF8StringValue set_User)
       else if tag =? 2 then Some ("password", unmarshalUTF8StringValue set_Password)
       else None)
    Credentials_unrecognized set_Credentials_unrecognized.

Definition TlsConfig_unmarshalInfo : unmarshalInfo TlsConfig :=
  mkUnmarshalInfo "topo.device.TlsConfig"
    (fun tag =>
       if tag =? 3 then Some ("caCert", unmarshalUTF8StringValue set_CaCert)
       else if tag =? 4 then Some ("cert", unmarshalUTF8StringValue set_Cert)
       else if tag =? 5 then Some ("key", unmarshalUTF8StringValue set_Key)
       else if tag =? 6 then Some ("plain", unmarshalBoolValue set_Plain)
       else if tag =? 7 then Some ("insecure", unmarshalBoolValue set_Insecure)
       else None)
    TlsConfig_unrecognized set_TlsConfig_unrecognized.

Definition Device_unmarshalInfo : unmarshalInfo Device :=
  mkUnmarshalInfo "topo.device.Device"
    (fun tag =>
       if tag =? 1 then Some ("id", unmarshalUTF8StringValue set_ID)
       else if tag =? 2 then Some ("revision", unmarshalVarintValue uint64 set_Revision)
       else if tag =? 3 then Some ("address", unmarshalUTF8StringValue set_Address)
       else if tag =? 4 then Some ("target", unmarshalUTF8StringValue set_Target)
       else if tag =? 5
       then Some ("software_version", unmarshalUTF8StringValue set_SoftwareVersion)
       else if tag =? 6 then Some ("timeout", unmarshalVarintValue int64 set_Timeout)
       else if tag =? 7
       then Some ("credentials",
                  unmarshalMessagePtr Credentials_unmarshalInfo Credentials_zero
                                      Creds set_Creds)
       else if tag =? 8
       then Some ("tls",
                  unmarshalMessagePtr TlsConfig_unmarshalInfo TlsConfig_zero
                                      Tls set_Tls)
       else None)
    XXX_unrecognized set_XXX_unrecognized.

(** [proto.Marshal(device)]: the caller only looks at the bytes when the
    error is nil. *)
Definition Marshal (d : Device) : Result (list byte) :=
  match marshal Device_marshalInfo [] d with
  | (b, None) => Ok b
  | (_, Some e) => Err e
  end.

(** [proto.Unmarshal(value, device)]: [device.Reset()], then the loop
    over [value]; the message that [device] holds afterwards, or the
    error. *)
Definition Unmarshal (value : list byte) : Result Device :=
  match unmarshal Device_unmarshalInfo Device_zero value with
  | inr d => Ok d
  | inl e => Err (DecodeError e)
  end.

End Proto.

(* ===================================================================== *)
(** ** Valid devices *)
(* ===================================================================== *)

(** A [Device] value as a Go program can hold and [proto.Marshal] accepts
    it: the integers are in the range of their types, every length is an
    [int], the strings are UTF-8 (proto3), and no bytes of unknown fields
    ride along. *)
Module Valid.
Import Proto.

(** [len(x)] is an [int]. *)
Definition len_ok (l : list byte) : bool := Z.of_nat (length l) <? 2 ^ 63.

Definition string_ok (s : string) : bool :=
  ValidString s && len_ok (String.list_byte_of_string s).

Definition nil_bytes (l : list byte) : bool :=
  match l with
  | [] => true
  | _ => false
  end.

Definition Credentials_valid (c : Credentials) : bool :=
  string_ok (User c) && string_ok (Password c)
  && nil_bytes (Credentials_unrecognized c)
  && len_ok (fst (marshal Credentials_marshalInfo [] c)).

Definition TlsConfig_valid (t : TlsConfig) : bool :=
  string_ok (CaCert t) && string_ok (Cert t) && string_ok (Key t)
  && nil_bytes (TlsConfig_unrecognized t)
  && len_ok (fst (marshal TlsConfig_marshalInfo [] t)).

Definition Device_valid (d : Device) : bool :=
  string_ok (ID d)
  && (0 <=? Revision d) && (Revision d <? 2 ^ 64)
  && string_ok (Address d) && string_ok (Target d)
  && string_ok (SoftwareVersion d)
  && (- 2 ^ 63 <=? Timeout d) && (Timeout d <? 2 ^ 63)
  && match Creds d with Some c => Credentials_valid c | None => true end
  && match Tls d with Some t => TlsConfig_valid t | None => true end
  && nil_bytes (XXX_unrecognized d).

End Valid.

(* ===================================================================== *)
(** ** Layout of an encoded message *)
(* ===================================================================== *)

(** What each kind of field adds to the buffer, and what it means for the
    decoding loop to read a whole buffer; both serve the statements about
    the codec. *)
Module Layout.
Import Proto.

Definition enc_string (wt : Z) (v : string) : list byte :=
  if String.eqb v "" then []
  else
    let raw := String.list_byte_of_string v in
    EncodeVarint wt ++ EncodeVarint (Z.of_nat (length raw)) ++ raw.

Definition enc_varint (wt : Z) (v : Z) : list byte :=
  if v =? 0 then [] else EncodeVarint wt ++ EncodeVarint (uint64 v).

Definition enc_bool (wt : Z) (v : bool) : list byte :=
  if v then EncodeVarint wt ++ [byte_of_Z 1] else [].

Definition enc_message {B} (sub : marshalInfo B) (wt : Z) (o : option B) : list byte :=
  match o with
  | None => []
  | Some p =>
      let body := fst (marshal sub [] p) in
      EncodeVarint wt ++ EncodeVarint (Z.of_nat (length body)) ++ body
  end.

(** [decodes u m b r]: started on the message [m], the loop reads all of
    [b] within [length b] rounds and ends with the message [r]. *)
Definition decodes {A} (u : unmarshalInfo A) (m : A) (b : list byte) (r : A) : Prop :=
  exists f, (f <= length b)%nat /\ unmarshal_loop u f m b None = inr r.

(** A table of unmarshalers none of which hands back more than it got. *)
Definition shrinking {A} (u : unmarshalInfo A) : Prop :=
  forall tag name fn b m wire rest m',
    ui_dense u tag = Some (name, fn) ->
    fn b m wire = Decoded rest m' \/ fn b m wire = DecodedInvalidUTF8 rest m' ->
    (length rest <= length b)%nat.

End Layout.

(* ===================================================================== *)
(** ** The replicated map (atomix client, package [_map]) *)
(* ===================================================================== *)

(** [_map.KeyValue] *)
Module KeyValue.
Record t : Type := mk {
  Key : string;
  Value : list byte;
  Version : Z                            (* int64 *)
}.
End KeyValue.

(** [_map.MapEventType] is a string type: [EventType(event.Type)] in
    [Watch] converts between two types with the same underlying type. *)
Definition MapEventType : Type := string.

(** [_map.MapEvent] *)
Module MapEvent.
Record t : Type := mk {
  Type_ : MapEventType;
  Key : string;
  Value : list byte;
  Version : Z
}.
End MapEvent.

(** The options the store passes: [_map.WithVersion(v)] to [Put] and
    [Remove], [_map.WithReplay()] to [Watch]. *)
Inductive VersionOption : Type :=
  | WithVersion (version : Z).

Inductive WatchOption : Type :=
  | WithReplay.

(** The methods of the [_map.Map] interface that the store calls.  The
    handle [M] stands for the map as the call finds it; a call that can
    write returns the map as it leaves it.  [Entries] and [Watch] answer
    with the error of the subscription or with what the map then sends on
    the channel it was given, in order; after the last item the map closes
    that channel. *)
Class Map (M : Type) : Type := {
  Get : M -> string -> Result (option KeyValue.t);
  Put : M -> string -> list byte -> list VersionOption -> M * Result KeyValue.t;
  Remove : M -> string -> list VersionOption -> M * Result (option KeyValue.t);
  Entries : M -> Result (list KeyValue.t);
  Watch : M -> list WatchOption -> Result (list MapEvent.t)
}.

(** Modelled from the spec: the replicated map is an external collaborator,
    described only at its boundary (sections 1, 2 and 4.1, glossary):
    a key has at most one live entry with its value and version; an
    unconditional put creates or blindly overwrites; a conditional put or
    remove succeeds only if the current version of the key is the expected
    one and fails with ConflictError otherwise (for a put also when the
    entry was deleted); removing a key that does not exist is not an error.
    [entries] is the content of the map. *)
Class MapContract (M : Type) `{Map M} : Type := {
  entries : M -> gmap string (list byte * Z);

  Get_entries : forall m k r,
    Get m k = Ok r ->
    r = (fun e => KeyValue.mk k (fst e) (snd e)) <$> (entries m !! k);

  Put_unconditional : forall m k v m' r,
    Put m k v [] = (m', r) ->
    match r with
    | Ok kv => KeyValue.Key kv = k /\ KeyValue.Value kv = v
               /\ entries m' = <[k := (v, KeyValue.Version kv)]> (entries m)
    | Err e => e <> ConflictError
    end;

  Put_expected : forall m k v ver m' kv,
    Put m k v [WithVersion ver] = (m', Ok kv) ->
    (exists old, entries m !! k = Some (old, ver))
    /\ KeyValue.Key kv = k /\ KeyValue.Value kv = v
    /\ entries m' = <[k := (v, KeyValue.Version kv)]> (entries m);

  Put_conflict : forall m k v ver,
    (forall old, entries m !! k <> Some (old, ver)) ->
    exists m', Put m k v [WithVersion ver] = (m', Err ConflictError)
               /\ entries m' = entries m;

  Remove_absent : forall m k opts,
    entries m !! k = None ->
    exists m' r, Remove m k opts = (m', Ok r) /\ entries m' = entries m;

  Remove_unconditional : forall m k m' r,
    Remove m k [] = (m', r) ->
    match r with
    | Ok _ => entries m' = delete k (entries m)
    | Err e => e <> ConflictError
    end;

  Remove_expected : forall m k ver m' r,
    Remove m k [WithVersion ver] = (m', Ok r) ->
    (entries m !! k = None \/ exists old, entries m !! k = Some (old, ver))
    /\ entries m' = delete k (entries m);

  Remove_conflict : forall m k ver old cur,
    entries m !! k = Some (old, cur) -> cur <> ver ->
    exists m', Remove m k [WithVersion ver] = (m', Err ConflictError)
               /\ entries m' = entries m
}.

(* ===================================================================== *)
(** ** The device store *)
(* ===================================================================== *)

(** [type EventType string] and its constants. *)
Definition EventType : Type := string.
Definition EventNone : EventType := "".
Definition EventInserted : EventType := "inserted".
Definition EventUpdated : EventType := "updated".
Definition EventRemoved : EventType := "removed".

(** [type Event struct { Type EventType; Device *Device }] *)
Module Event.
Record t : Type := mk {
  Type_ : EventType;
  Device : Device
}.
End Event.

(** A channel as its receiver sees it: what was sent, in order, and
    whether it was closed. *)
Record Chan (A : Type) : Type := mkChan {
  sent : list A;
  closed : bool
}.
Arguments mkChan {A}.
Arguments sent {A}.
Arguments closed {A}.

(** [ch <- x] and [close(ch)] *)
Definition send {A} (ch : Chan A) (x : A) : Chan A := mkChan (sent ch ++ [x]) (closed ch).
Definition close {A} (ch : Chan A) : Chan A := mkChan (sent ch) true.

(** A goroutine of the shape
    [go func() { defer close(ch); for x := range mapCh { body } }()]:
    it is still ranging over what [mapCh] has left to deliver, or it has
    returned and the deferred [close(ch)] has run. *)
Inductive goroutine (A B : Type) : Type :=
  | Ranging (mapCh : list A) (ch : Chan B)
  | Returned (ch : Chan B).
Arguments Ranging {A B}.
Arguments Returned {A B}.

Definition step {A B} (body : A -> Chan B -> Chan B) (g : goroutine A B) : goroutine A B :=
  match g with
  | Ranging (x :: mapCh) ch => Ranging mapCh (body x ch)
  | Ranging [] ch => Returned (close ch)
  | Returned ch => Returned ch
  end.

Fixpoint run {A B} (body : A -> Chan B -> Chan B) (n : nat) (g : goroutine A B)
  : goroutine A B :=
  match n with
  | O => g
  | S n' => run body n' (step body g)
  end.

Definition sink {A B} (g : goroutine A B) : Chan B :=
  match g with
  | Ranging _ ch => ch
  | Returned ch => ch
  end.

(** [EventType(event.Type)]: a conversion between two string types keeps
    the string. *)
Definition EventType_of (t : MapEventType) : EventType := t.

(** [func decodeDevice(key string, value []byte, version int64)] *)
Definition decodeDevice (key : string) (value : list byte) (version : Z)
  : Result Device :=
  match Proto.Unmarshal value with
  | Err err => Err err
  | Ok device => Ok (set_Revision (uint64 version) (set_ID key device))
  end.

(** The error of a Go result pair, [None] for [nil]. *)
Definition error_of {A} (r : Result A) : option error :=
  match r with
  | Ok _ => None
  | Err err => Some err
  end.

Module atomixStore.
Section Methods.
Context {M : Type} `{Map M}.

(** [func (s *atomixStore) Load(deviceID ID)], which returns a device
    pointer and an error; [Ok None] is the pair [nil, nil]. *)
Definition Load (s : M) (deviceID : string) : Result (option Device) :=
  match Get s deviceID with
  | Err err => Err err
  | Ok None => Ok None
  | Ok (Some kv) =>
      match decodeDevice (KeyValue.Key kv) (KeyValue.Value kv) (KeyValue.Version kv) with
      | Err err => Err err
      | Ok device => Ok (Some device)
      end
  end.

(** [func (s *atomixStore) Store(device *Device) error]: the map after
    the call, the caller's device after the call, and the error. *)
Definition Store (s : M) (device : Device) : M * Device * option error :=
  match Proto.Marshal device with
  | Err err => (s, device, Some err)
  | Ok bytes =>
      (* Put the device in the map using an optimistic lock if this is
         an update *)
      let '(s', r) :=
        if Revision device =? 0
        then Put s (ID device) bytes []
        else Put s (ID device) bytes [WithVersion (int64 (Revision device))] in
      match r with
      | Err err => (s', device, Some err)
      | Ok kv =>
          (* Update the device metadata *)
          (s', set_Revision (uint64 (KeyValue.Version kv)) device, None)
      end
  end.

(** [func (s *atomixStore) Delete(device *Device) error] *)
Definition Delete (s : M) (device : Device) : M * option error :=
  if 0 <? Revision device
  then
    let '(s', r) := Remove s (ID device) [WithVersion (int64 (Revision device))] in
    (s', error_of r)
  else
    let '(s', r) := Remove s (ID device) [] in
    (s', error_of r).

(** The body of the loop in [List]. *)
Definition List_body (kv : KeyValue.t) (ch : Chan Device) : Chan Device :=
  match decodeDevice (KeyValue.Key kv) (KeyValue.Value kv) (KeyValue.Version kv) with
  | Ok device => send ch device
  | Err _ => ch
  end.

(** [func (s *atomixStore) List(ch chan<- *Device) error]: the returned
    error, and the goroutine it has started, if any. *)
Definition List (s : M) (ch : Chan Device)
  : option error * option (goroutine KeyValue.t Device) :=
  match Entries s with
  | Err err => (Some err, None)
  | Ok mapCh => (None, Some (Ranging mapCh ch))
  end.

(** The body of the loop in [Watch]. *)
Definition Watch_body (event : MapEvent.t) (ch : Chan Event.t) : Chan Event.t :=
  match decodeDevice (MapEvent.Key event) (MapEvent.Value event) (MapEvent.Version event) with
  | Ok device => send ch (Event.mk (EventType_of (MapEvent.Type_ event)) device)
  | Err _ => ch
  end.

(** [func (s *atomixStore) Watch(ch chan<- *Event) error] *)
Definition Watch (s : M) (ch : Chan Event.t)
  : option error * option (goroutine MapEvent.t Event.t) :=
  match Watch s [WithReplay] with
  | Err err => (Some err, None)
  | Ok mapCh => (None, Some (Ranging mapCh ch))
  end.

End Methods.
End atomixStore.

(* ===================================================================== *)
(** ** Properties named in the statements *)
(* ===================================================================== *)

(** [Delete] is the map's [Remove] of the key [device.ID] with the options
    [opts]: same map afterwards, same error. *)
Definition Delete_is {M} `{Map M} (s : M) (device : Device)
    (opts : list VersionOption) : Prop :=
  atomixStore.Delete s device
  = ((Remove s (ID device) opts).1, error_of (Remove s (ID device) opts).2).

(** What the loop of [List] sends for one entry, and what it has put on
    the sink after the entries [kvs]: the devices of the entries that
    decode, in order. *)
Definition decoded (kv : KeyValue.t) : option Device :=
  match decodeDevice (KeyValue.Key kv) (KeyValue.Value kv) (KeyValue.Version kv) with
  | Ok device => Some device
  | Err _ => None
  end.

Definition delivered (kvs : list KeyValue.t) : list Device := omap decoded kvs.

(** The same for the loop of [Watch] and the events of the feed. *)
Definition translated (event : MapEvent.t) : option Event.t :=
  match decodeDevice (MapEvent.Key event) (MapEvent.Value event) (MapEvent.Version event) with
  | Ok device => Some (Event.mk (EventType_of (MapEvent.Type_ event)) device)
  | Err _ => None
  end.

Definition notified (events : list MapEvent.t) : list Event.t := omap translated events.


(** The reading of "any other or unknown raw kind maps to None". *)
Definition unknown_kind_is_None : Prop :=
  forall t : MapEventType,
    t <> "inserted" -> t <> "updated" -> t <> "removed" ->
    EventType_of t = EventNone.


(* ===================================================================== *)
(** ** A reference map *)
(* ===================================================================== *)

(** Modelled from the spec: an in-memory map with the behaviour that the
    specification asks of the replicated map (sections 2 and 4.1): one
    entry per key, every write stamped with a fresh version (the count of
    writes so far), conditional writes checked against the current version,
    an enumeration of the current entries, and a feed that replays the
    current entries as insertions.  It never fails for reasons of its own.
    The statements below hold for every [Map]; this one instantiates them. *)
Module LocalMap.

Record t : Type := mk {
  content : gmap string (list byte * Z);
  index : Z
}.

Definition empty : t := mk ∅ 0.

(** The expected version after all options were applied: the last
    [WithVersion] wins. *)
Definition expected (opts : list VersionOption) : option Z :=
  foldl (fun _ o => match o with WithVersion v => Some v end) None opts.

Definition Get (m : t) (k : string) : Result (option KeyValue.t) :=
  Ok ((fun e => KeyValue.mk k (fst e) (snd e)) <$> (content m !! k)).

Definition write (m : t) (k : string) (v : list byte) : t * Result KeyValue.t :=
  let ver := index m + 1 in
  (mk (<[k := (v, ver)]> (content m)) ver, Ok (KeyValue.mk k v ver)).

Definition Put (m : t) (k : string) (v : list byte) (opts : list VersionOption)
  : t * Result KeyValue.t :=
  match expected opts with
  | None => write m k v
  | Some ver =>
      match content m !! k with
      | Some (_, cur) => if cur =? ver then write m k v else (m, Err ConflictError)
      | None => (m, Err ConflictError)
      end
  end.

Definition Remove (m : t) (k : string) (opts : list VersionOption)
  : t * Result (option KeyValue.t) :=
  match content m !! k with
  | None => (m, Ok None)
  | Some (old, cur) =>
      let removed :=
        (mk (delete k (content m)) (index m + 1), Ok (Some (KeyValue.mk k old cur))) in
      match expected opts with
      | None => removed
      | Some ver => if cur =? ver then removed else (m, Err ConflictError)
      end
  end.

Definition Entries (m : t) : Result (list KeyValue.t) :=
  Ok ((fun e => KeyValue.mk (fst e) (fst (snd e)) (snd (snd e)))
        <$> map_to_list (content m)).

Definition Watch (m : t) (opts : list WatchOption) : Result (list MapEvent.t) :=
  Ok (match opts with
      | [] => []
      | WithReplay :: _ =>
          (fun e => MapEvent.mk "inserted" (fst e) (fst (snd e)) (snd (snd e)))
            <$> map_to_list (content m)
      end).

End LocalMap.

#[export] Instance LocalMap_Map : Map LocalMap.t := {|
  Get := LocalMap.Get;
  Put := LocalMap.Put;
  Remove := LocalMap.Remove;
  Entries := LocalMap.Entries;
  Watch := LocalMap.Watch
|}.

(* ===================================================================== *)
(** ** A worked scenario *)
(* ===================================================================== *)

(** The end-to-end scenario of the specification (section 8) on the
    reference map: device "d1" is stored, updated, and a writer that still
    holds the first revision comes too late. *)
Module Scenario.

Definition d1 : Device :=
  mkDevice "d1" 0 "10.0.0.1:830" "" "" 0 None None [].

(** the map after the first [Store], and the caller's device after it *)
Definition m1 : LocalMap.t := (atomixStore.Store LocalMap.empty d1).1.1.
Definition d1_stored : Device := (atomixStore.Store LocalMap.empty d1).1.2.

(** the update to a new address, carrying revision 1 *)
Definition d1_moved : Device := set_Address "10.0.0.2:830" d1_stored.
Definition m2 : LocalMap.t := (atomixStore.Store m1 d1_moved).1.1.

(** a second writer that still holds revision 1 *)
Definition d1_stale : Device := set_Address "10.0.0.3:830" d1_stored.

(** what [proto.Marshal] makes of the three *)
Definition payload (d : Device) : list byte :=
  match Proto.Marshal d with
  | Ok bytes => bytes
  | Err _ => []
  end.
Definition d1_bytes : list byte := Eval vm_compute in payload d1.
Definition d1_moved_bytes : list byte := Eval vm_compute in payload d1_moved.
Definition d1_stale_bytes : list byte := Eval vm_compute in payload d1_stale.

(** an entry whose value is not a message: a length prefix of 5 with
    nothing behind it *)
Definition broken : LocalMap.t :=
  LocalMap.mk {[ "d2" := (["010"%byte; "005"%byte], 1) ]} 1.

(** an enumeration with a broken entry between two good ones *)
Definition mixed : list KeyValue.t :=
  [ KeyValue.mk "d1" [] 1;
    KeyValue.mk "d2" ["010"%byte; "005"%byte] 2;
    KeyValue.mk "d3" ["026"%byte; "001"%byte; "097"%byte] 3 ].

End Scenario.

(** The device that [decodeDevice] makes of a payload that decodes to
    [d], read under the key and the version of an entry. *)
Definition stamped (key : string) (version : Z) (d : Device) : Device :=
  set_Revision (uint64 version) (set_ID key d).

(* ===================================================================== *)
(** ** The northbound messages (package [proto], device.pb.go) *)
(* ===================================================================== *)

(** The messages of the gRPC device service as protoc generated them.
    [Credentials] and [TlsConfig] are the records above; the structs below
    are [ObjectMetadata], the northbound [Device] and [ListResponse] with
    its enum [ListResponse_Type].  Each message is a module with the
    record [t], the value [zero] that [Reset] assigns, the setters the
    decoder uses, and the two generated methods [XXX_Marshal] and
    [XXX_Unmarshal], which hand the call to the table-driven codec with
    the table read off the struct tags. *)
Module pb.
Import Proto.

(** [int32(x)]: two's complement reading of the low 32 bits. *)
Definition int32 (z : Z) : Z := (z + 2 ^ 31) mod 2 ^ 32 - 2 ^ 31.

(** [type ListResponse_Type int32] and its constants. *)
Definition ListResponse_Type : Type := Z.
Definition ListResponse_NONE : ListResponse_Type := 0.
Definition ListResponse_ADDED : ListResponse_Type := 1.
Definition ListResponse_UPDATED : ListResponse_Type := 2.
Definition ListResponse_REMOVED : ListResponse_Type := 3.

(** [var ListResponse_Type_name = map[int32]string{...}] *)
Definition ListResponse_Type_name : gmap Z string :=
  <[0 := "NONE"]> (<[1 := "ADDED"]> (<[2 := "UPDATED"]> (<[3 := "REMOVED"]> ∅))).

(** [var ListResponse_Type_value = map[string]int32{...}] *)
Definition ListResponse_Type_value : gmap string Z :=
  <["NONE" := 0]> (<["ADDED" := 1]> (<["UPDATED" := 2]> (<["REMOVED" := 3]> ∅))).

(** [strconv.Itoa]: the decimal numeral, with a minus sign for a negative
    number. *)
Definition Itoa (v : Z) : string := pretty v.

(** [proto.EnumName(m, v)]: [s, ok := m[v]; if ok { return s }; return
    strconv.Itoa(int(v))]. *)
Definition EnumName (m : gmap Z string) (v : Z) : string :=
  match m !! v with
  | Some s => s
  | None => Itoa v
  end.

(** [func (x ListResponse_Type) String() string] *)
Definition ListResponse_Type_String (x : ListResponse_Type) : string :=
  EnumName ListResponse_Type_name x.

(** [type ObjectMetadata struct] *)
Module ObjectMetadata.

Record t : Type := mk {
  Id : string;                             (* bytes,1 *)
  Version : Z;                             (* varint,2: uint64 *)
  XXX_unrecognized : list byte
}.

Definition zero : t := mk "" 0 [].

Definition set_Id (v : string) (m : t) : t := mk v (Version m) (XXX_unrecognized m).
Definition set_Version (v : Z) (m : t) : t := mk (Id m) v (XXX_unrecognized m).
Definition set_XXX_unrecognized (v : list byte) (m : t) : t := mk (Id m) (Version m) v.

Definition marshalInfo : marshalInfo t :=
  mkMarshalInfo "proto.ObjectMetadata"
    [ mkMarshalField "id" (appendUTF8StringValueNoZero Id (wiretag 1 WireBytes));
      mkMarshalField "version" (appendVarint64ValueNoZero Version (wiretag 2 WireVarint)) ]
    XXX_unrecognized.

Definition unmarshalInfo : unmarshalInfo t :=
  mkUnmarshalInfo "proto.ObjectMetadata"
    (fun tag =>
       if tag =? 1 then Some ("id", unmarshalUTF8StringValue set_Id)
       else if tag =? 2 then Some ("version", unmarshalVarintValue uint64 set_Version)
       else None)
    XXX_unrecognized set_XXX_unrecognized.

(** [func (m *ObjectMetadata) XXX_Marshal(b []byte, deterministic bool)] *)
Definition XXX_Marshal (m : t) (b : list byte) : list byte * option error :=
  marshal marshalInfo b m.

(** [func (m *ObjectMetadata) XXX_Unmarshal(b []byte) error]: the message
    that [m] holds afterwards, or the error. *)
Definition XXX_Unmarshal (m : t) (b : list byte) : decode_failure + t :=
  unmarshal unmarshalInfo m b.

(** A value that a Go program can hold and the encoder accepts. *)
Definition valid (m : t) : bool :=
  Valid.string_ok (Id m)
  && (0 <=? Version m) && (Version m <? 2 ^ 64)
  && Valid.nil_bytes (XXX_unrecognized m)
  && Valid.len_ok (fst (marshal marshalInfo [] m)).

End ObjectMetadata.

(** The tables of [Credentials] and [TlsConfig] under the names that
    [init] registers for them. *)
Definition Credentials_marshalInfo : marshalInfo Credentials :=
  mkMarshalInfo "proto.Credentials"
    [ mkMarshalField "user" (appendUTF8StringValueNoZero User (wiretag 1 WireBytes));
      mkMarshalField "password" (appendUTF8StringValueNoZero Password (wiretag 2 WireBytes)) ]
    Credentials_unrecognized.

Definition Credentials_unmarshalInfo : unmarshalInfo Credentials :=
  mkUnmarshalInfo "proto.Credentials"
    (fun tag =>
       if tag =? 1 then Some ("user", unmarshalUTF8StringValue set_User)
       else if tag =? 2 then Some ("password", unmarshalUTF8StringValue set_Password)
       else None)
    Credentials_unrecognized set_Credentials_unrecognized.

Definition Credentials_valid (c : Credentials) : bool :=
  Valid.string_ok (User c) && Valid.string_ok (Password c)
  && Valid.nil_bytes (Credentials_unrecognized c)
  && Valid.len_ok (fst (marshal Credentials_marshalInfo [] c)).

Definition TlsConfig_marshalInfo : marshalInfo TlsConfig :=
  mkMarshalInfo "proto.TlsConfig"
    [ mkMarshalField "caCert" (appendUTF8StringValueNoZero CaCert (wiretag 3 WireBytes));
      mkMarshalField "cert" (appendUTF8StringValueNoZero Cert (wiretag 4 WireBytes));
      mkMarshalField "key" (appendUTF8StringValueNoZero Key (wiretag 5 WireBytes));
      mkMarshalField "plain" (appendBoolValueNoZero Plain (wiretag 6 WireVarint));
      mkMarshalField "insecure" (appendBoolValueNoZero Insecure (wiretag 7 WireVarint)) ]
    TlsConfig_unrecognized.

Definition TlsConfig_unmarshalInfo : unmarshalInfo TlsConfig :=
  mkUnmarshalInfo "proto.TlsConfig"
    (fun tag =>
       if tag =? 3 then Some ("caCert", unmarshalUTF8StringValue set_CaCert)
       else if tag =? 4 then Some ("cert", unmarshalUTF8StringValue set_Cert)
       else if tag =? 5 then Some ("key", unmarshalUTF8StringValue set_Key)
       else if tag =? 6 then Some ("plain", unmarshalBoolValue set_Plain)
       else if tag =? 7 then Some ("insecure", unmarshalBoolValue set_Insecure)
       else None)
    TlsConfig_unrecognized set_TlsConfig_unrecognized.

Definition TlsConfig_valid (t : TlsConfig) : bool :=
  Valid.string_ok (CaCert t) && Valid.string_ok (Cert t) && Valid.string_ok (Key t)
  && Valid.nil_bytes (TlsConfig_unrecognized t)
  && Valid.len_ok (fst (marshal TlsConfig_marshalInfo [] t)).

(** [type Device struct] of the northbound API. *)
Module Device.

Record t : Type := mk {
  Metadata : option ObjectMetadata.t;      (* bytes,1 *)
  Id : string;                             (* bytes,2 *)
  Address : string;                        (* bytes,3 *)
  Target : string;                         (* bytes,4 *)
  SoftwareVersion : string;                (* bytes,5 *)
  Timeout : Z;                             (* varint,6: int64 *)
  Credentials : option Credentials;        (* bytes,7 *)
  Tls : option TlsConfig;                  (* bytes,8 *)
  XXX_unrecognized : list byte
}.

Definition zero : t := mk None "" "" "" "" 0 None None [].

Definition set_Metadata (v : option ObjectMetadata.t) (m : t) : t :=
  mk v (Id m) (Address m) (Target m) (SoftwareVersion m) (Timeout m)
     (Credentials m) (Tls m) (XXX_unrecognized m).
Definition set_Id (v : string) (m : t) : t :=
  mk (Metadata m) v (Address m) (Target m) (SoftwareVersion m) (Timeout m)
     (Credentials m) (Tls m) (XXX_unrecognized m).
Definition set_Address (v : string) (m : t) : t :=
  mk (Metadata m) (Id m) v (Target m) (SoftwareVersion m) (Timeout m)
     (Credentials m) (Tls m) (XXX_unrecognized m).
Definition set_Target (v : string) (m : t) : t :=
  mk (Metadata m) (Id m) (Address m) v (SoftwareVersion m) (Timeout m)
     (Credentials m) (Tls m) (XXX_unrecognized m).
Definition set_SoftwareVersion (v : string) (m : t) : t :=
  mk (Metadata m) (Id m) (Address m) (Target m) v (Timeout m)
     (Credentials m) (Tls m) (XXX_unrecognized m).
Definition set_Timeout (v : Z) (m : t) : t :=
  mk (Metadata m) (Id m) (Address m) (Target m) (SoftwareVersion m) v
     (Credentials m) (Tls m) (XXX_unrecognized m).
Definition set_Credentials v (m : t) : t :=
  mk (Metadata m) (Id m) (Address m) (Target m) (SoftwareVersion m) (Timeout m)
     v (Tls m) (XXX_unrecognized m).
Definition set_Tls (v : option TlsConfig) (m : t) : t :=
  mk (Metadata m) (Id m) (Address m) (Target m) (SoftwareVersion m) (Timeout m)
     (Credentials m) v (XXX_unrecognized m).
Definition set_XXX_unrecognized (v : list byte) (m : t) : t :=
  mk (Metadata m) (Id m) (Address m) (Target m) (SoftwareVersion m) (Timeout m)
     (Credentials m) (Tls m) v.

Definition marshalInfo : marshalInfo t :=
  mkMarshalInfo "proto.Device"
    [ mkMarshalField "metadata"
        (appendMessagePtr ObjectMetadata.marshalInfo Metadata (wiretag 1 WireBytes));
      mkMarshalField "id" (appendUTF8StringValueNoZero Id (wiretag 2 WireBytes));
      mkMarshalField "address" (appendUTF8StringValueNoZero Address (wiretag 3 WireBytes));
      mkMarshalField "target" (appendUTF8StringValueNoZero Target (wiretag 4 WireBytes));
      mkMarshalField "software_version"
        (appendUTF8StringValueNoZero SoftwareVersion (wiretag 5 WireBytes));
      mkMarshalField "timeout" (appendVarint64ValueNoZero Timeout (wiretag 6 WireVarint));
      mkMarshalField "credentials"
        (appendMessagePtr Credentials_marshalInfo Credentials (wiretag 7 WireBytes));
      mkMarshalField "tls"
        (appendMessagePtr TlsConfig_marshalInfo Tls (wiretag 8 WireBytes)) ]
    XXX_unrecognized.

Definition unmarshalInfo : unmarshalInfo t :=
  mkUnmarshalInfo "proto.Device"
    (fun tag =>
       if tag =? 1
       then Some ("metadata",
                  unmarshalMessagePtr ObjectMetadata.unmarshalInfo ObjectMetadata.zero
                                      Metadata set_Metadata)
       else if tag =? 2 then Some ("id", unmarshalUTF8StringValue set_Id)
       else if tag =? 3 then Some ("address", unmarshalUTF8StringValue set_Address)
       else if tag =? 4 then Some ("target", unmarshalUTF8StringValue set_Target)
       else if tag =? 5
       then Some ("software_version", unmarshalUTF8StringValue set_SoftwareVersion)
       else if tag =? 6 then Some ("timeout", unmarshalVarintValue int64 set_Timeout)
       else if tag =? 7
       then Some ("credentials",
                  unmarshalMessagePtr Credentials_unmarshalInfo Credentials_zero
                                      Credentials set_Credentials)
       else if tag =? 8
       then Some ("tls",
                  unmarshalMessagePtr TlsConfig_unmarshalInfo TlsConfig_zero
                                      Tls set_Tls)
       else None)
    XXX_unrecognized set_XXX_unrecognized.

(** [func (m *Device) XXX_Marshal(b []byte, deterministic bool)] *)
Definition XXX_Marshal (m : t) (b : list byte) : list byte * option error :=
  marshal marshalInfo b m.

(** [func (m *Device) XXX_Unmarshal(b []byte) error] *)
Definition XXX_Unmarshal (m : t) (b : list byte) : decode_failure + t :=
  unmarshal unmarshalInfo m b.

Definition valid (m : t) : bool :=
  match Metadata m with Some o => ObjectMetadata.valid o | None => true end
  && Valid.string_ok (Id m)
  && Valid.string_ok (Address m) && Valid.string_ok (Target m)
  && Valid.string_ok (SoftwareVersion m)
  && (- 2 ^ 63 <=? Timeout m) && (Timeout m <? 2 ^ 63)
  && match Credentials m with Some c => Credentials_valid c | None => true end
  && match Tls m with Some t => TlsConfig_valid t | None => true end
  && Valid.nil_bytes (XXX_unrecognized m).


End Device.

(** [type ListResponse struct] *)
Module ListResponse.

Record t : Type := mk {
  Type_ : ListResponse_Type;               (* varint,1: enum *)
  Device : option Device.t;                (* bytes,2 *)
  XXX_unrecognized : list byte
}.

Definition zero : t := mk ListResponse_NONE None [].

Definition set_Type (v : ListResponse_Type) (m : t) : t :=
  mk v (Device m) (XXX_unrecognized m).
Definition set_Device v (m : t) : t :=
  mk (Type_ m) v (XXX_unrecognized m).
Definition set_XXX_unrecognized (v : list byte) (m : t) : t :=
  mk (Type_ m) (Device m) v.

(** An enum field is an [int32] on the wire: written as [uint64(v)],
    read back as [int32(x)]. *)
Definition marshalInfo : marshalInfo t :=
  mkMarshalInfo "proto.ListResponse"
    [ mkMarshalField "type" (appendVarint64ValueNoZero Type_ (wiretag 1 WireVarint));
      mkMarshalField "device"
        (appendMessagePtr Device.marshalInfo Device (wiretag 2 WireBytes)) ]
    XXX_unrecognized.

Definition unmarshalInfo : unmarshalInfo t :=
  mkUnmarshalInfo "proto.ListResponse"
    (fun tag =>
       if tag =? 1 then Some ("type", unmarshalVarintValue int32 set_Type)
       else if tag =? 2
       then Some ("device",
                  unmarshalMessagePtr Device.unmarshalInfo Device.zero
                                      Device set_Device)
       else None)
    XXX_unrecognized set_XXX_unrecognized.

(** [func (m *ListResponse) XXX_Marshal(b []byte, deterministic bool)] *)
Definition XXX_Marshal (m : t) (b : list byte) : list byte * option error :=
  marshal marshalInfo b m.

(** [func (m *ListResponse) XXX_Unmarshal(b []byte) error] *)
Definition XXX_Unmarshal (m : t) (b : list byte) : decode_failure + t :=
  unmarshal unmarshalInfo m b.

Definition valid (m : t) : bool :=
  (- 2 ^ 31 <=? Type_ m) && (Type_ m <? 2 ^ 31)
  && match Device m with
     | Some d => Device.valid d && Valid.len_ok (fst (marshal Device.marshalInfo [] d))
     | None => true
     end
  && Valid.nil_bytes (XXX_unrecognized m).

End ListResponse.

End pb.

(* ===================================================================== *)
(** ** Further fixtures *)
(* ===================================================================== *)

Module Cases.


(** the caller's device after the update of [Scenario.d1_moved] *)
Definition d1_moved_stored : Device :=
  (atomixStore.Store Scenario.m1 Scenario.d1_moved).1.2.

(** the map after that device was deleted again *)
Definition m3 : LocalMap.t := (atomixStore.Delete Scenario.m2 d1_moved_stored).1.

(** the enumeration of a map that holds two stored devices *)
Definition stored : list KeyValue.t :=
  [ KeyValue.mk "d1" Scenario.d1_bytes 1;
    KeyValue.mk "d7" Scenario.d1_moved_bytes 4 ].

(** the feed of a map on which a device was stored, updated and removed *)
Definition feed : list MapEvent.t :=
  [ MapEvent.mk "inserted" "d1" Scenario.d1_bytes 1;
    MapEvent.mk "updated" "d1" Scenario.d1_moved_bytes 2;
    MapEvent.mk "removed" "d1" Scenario.d1_moved_bytes 2 ].

(** a second writer that holds a revision the map never gave out *)
Definition d1_late : Device := set_Revision 7 Scenario.d1.



End Cases.


(* ===================================================================== *)
(** * Theorems *)
(* ===================================================================== *)

Section IntFacts.

Lemma byte_to_Z_range b : 0 <= byte_to_Z b < 256.
Proof.
  unfold byte_to_Z. pose proof (Byte.to_N_bounded b). lia.
Qed.

Lemma byte_to_of_Z z : byte_to_Z (byte_of_Z z) = z mod 256.
Proof.
  unfold byte_to_Z, byte_of_Z.
  assert (Hr : 0 <= z mod 256 < 256) by (apply Z.mod_pos_bound; lia).
  destruct (Byte.of_N (Z.to_N (z mod 256))) as [b|] eqn:E.
  - apply Byte.to_of_N in E. rewrite E. lia.
  - apply Byte.of_N_None_iff in E. lia.
Qed.

Lemma uint64_id z : uint64_range z -> uint64 z = z.
Proof. unfold uint64_range, uint64. intros. apply Z.mod_small. lia. Qed.

Lemma uint64_is_range z : uint64_range (uint64 z).
Proof. unfold uint64_range, uint64. apply Z.mod_pos_bound. lia. Qed.

Lemma int64_is_range z : int64_range (int64 z).
Proof.
  unfold int64_range, int64.
  pose proof (Z.mod_pos_bound (z + 2 ^ 63) (2 ^ 64)). lia.
Qed.

Lemma int64_id z : int64_range z -> int64 z = z.
Proof.
  unfold int64_range, int64. intros.
  rewrite Z.mod_small; lia.
Qed.

(** Converting a [uint64] to [int64] and back loses nothing. *)
Lemma uint64_int64 z : uint64_range z -> uint64 (int64 z) = z.
Proof.
  unfold uint64_range, uint64, int64. intros H.
  destruct (Z_lt_le_dec z (2 ^ 63)).
  - rewrite (Z.mod_small (z + 2 ^ 63)) by lia.
    replace (z + 2 ^ 63 - 2 ^ 63) with z by lia. apply Z.mod_small. lia.
  - replace (z + 2 ^ 63) with ((z - 2 ^ 63) + 1 * 2 ^ 64) by lia.
    rewrite Z.mod_add by lia. rewrite (Z.mod_small (z - 2 ^ 63)) by lia.
    replace (z - 2 ^ 63 - 2 ^ 63) with (z + (-1) * 2 ^ 64) by lia.
    rewrite Z.mod_add by lia. apply Z.mod_small. lia.
Qed.

Lemma int64_uint64 z : int64_range z -> int64 (uint64 z) = z.
Proof.
  unfold int64_range, uint64, int64. intros H.
  destruct (Z_lt_le_dec z 0).
  - replace z with ((z + 2 ^ 64) + (-1) * 2 ^ 64) at 1 by lia.
    rewrite Z.mod_add by lia. rewrite (Z.mod_small (z + 2 ^ 64)) by lia.
    replace (z + 2 ^ 64 + 2 ^ 63) with ((z + 2 ^ 63) + 1 * 2 ^ 64) by lia.
    rewrite Z.mod_add by lia. rewrite Z.mod_small; lia.
  - rewrite (Z.mod_small z) by lia. rewrite Z.mod_small; lia.
Qed.

End IntFacts.

Section VarintFacts.

Lemma land_disjoint a b n :
  0 <= n -> 0 <= a < 2 ^ n -> Z.land a (Z.shiftl b n) = 0.
Proof.
  intros Hn Ha. apply Z.bits_inj'. intros i Hi.
  rewrite Z.land_spec, Z.bits_0.
  destruct (Z_lt_le_dec i n).
  - rewrite Z.shiftl_spec_low by lia. apply andb_false_r.
  - rewrite <- (Z.mod_small a (2 ^ n)) by lia.
    rewrite Z.mod_pow2_bits_high by lia. reflexivity.
Qed.

Lemma lor_shiftl_add a b n :
  0 <= n -> 0 <= a < 2 ^ n -> Z.lor a (Z.shiftl b n) = a + b * 2 ^ n.
Proof.
  intros Hn Ha.
  rewrite <- Z.lxor_lor by (apply land_disjoint; lia).
  rewrite <- Z.add_nocarry_lxor by (apply land_disjoint; lia).
  rewrite Z.shiftl_mul_pow2 by lia. reflexivity.
Qed.

Lemma byte_land_127 b : Z.land (byte_to_Z b) 127 = byte_to_Z b mod 128.
Proof. change 127 with (Z.ones 7). rewrite Z.land_ones by lia. reflexivity. Qed.

Lemma byte_land_128 b : (Z.land (byte_to_Z b) 128 =? 0) = (byte_to_Z b <? 128).
Proof. destruct b; reflexivity. Qed.

Lemma continuation_byte x :
  byte_to_Z (byte_of_Z (Z.lor 128 (Z.land x 127))) = 128 + x mod 128.
Proof.
  rewrite byte_to_of_Z.
  change 127 with (Z.ones 7). rewrite Z.land_ones by lia.
  change (2 ^ 7) with 128.
  pose proof (Z.mod_pos_bound x 128 ltac:(lia)) as Hm.
  assert (Hlor : Z.lor 128 (x mod 128) = 128 + x mod 128).
  { rewrite Z.lor_comm.
    pose proof (lor_shiftl_add (x mod 128) 1 7 ltac:(lia)) as H.
    change (Z.shiftl 1 7) with 128 in H. change (2 ^ 7) with 128 in H.
    rewrite H by lia. lia. }
  rewrite Hlor. apply Z.mod_small. lia.
Qed.

Lemma decode_final_byte rd shift acc x rest :
  0 <= shift -> 0 <= acc < 2 ^ shift -> 0 <= x <= 127 ->
  acc + x * 2 ^ shift < 2 ^ 64 ->
  decodeVarint_loop (S rd) shift acc (byte_of_Z x :: rest)
  = Some (acc + x * 2 ^ shift, rest).
Proof.
  intros Hs Hacc Hx Hlt. cbn [decodeVarint_loop].
  rewrite byte_land_128, byte_land_127, byte_to_of_Z.
  rewrite (Z.mod_small x 256) by lia.
  rewrite (Z.mod_small x 128) by lia.
  destruct (Z.ltb_spec x 128); [|lia].
  assert (0 <= x * 2 ^ shift) by (apply Z.mul_nonneg_nonneg; lia).
  rewrite uint64_id
    by (unfold uint64_range; rewrite Z.shiftl_mul_pow2 by lia; lia).
  rewrite lor_shiftl_add by lia. reflexivity.
Qed.

Lemma decode_encode_loop re : forall x rd shift acc rest,
  (re < rd)%nat -> 0 <= shift -> 0 <= acc < 2 ^ shift ->
  0 <= x < 2 ^ (7 * (Z.of_nat re + 1)) ->
  acc + x * 2 ^ shift < 2 ^ 64 ->
  decodeVarint_loop rd shift acc (encodeVarint_loop re x ++ rest)
  = Some (acc + x * 2 ^ shift, rest).
Proof.
  induction re as [|re IH]; intros x rd shift acc rest Hrd Hs Hacc Hx Hlt.
  - destruct rd as [|rd]; [lia|]. cbn [encodeVarint_loop app].
    change (2 ^ (7 * (Z.of_nat 0 + 1))) with 128 in Hx.
    apply decode_final_byte; lia.
  - destruct rd as [|rd]; [lia|]. cbn [encodeVarint_loop].
    destruct (Z.ltb_spec 127 x) as [Hbig|Hsmall].
    + cbn [app decodeVarint_loop].
      rewrite byte_land_128, byte_land_127, continuation_byte.
      pose proof (Z.mod_pos_bound x 128 ltac:(lia)) as Hm.
      destruct (Z.ltb_spec (128 + x mod 128) 128); [lia|].
      assert (Hmm : (128 + x mod 128) mod 128 = x mod 128).
      { replace (128 + x mod 128) with (x mod 128 + 1 * 128) by lia.
        rewrite Z.mod_add by lia. apply Z.mod_small. lia. }
      rewrite Hmm.
      assert (Hpow : 0 < 2 ^ shift) by (apply Z.pow_pos_nonneg; lia).
      assert (Hdiv : x = 128 * (x / 128) + x mod 128) by (apply Z.div_mod; lia).
      assert (Hq : 0 <= x / 128) by (apply Z.div_pos; lia).
      assert (Hlow : 0 <= (x mod 128) * 2 ^ shift <= x * 2 ^ shift) by nia.
      rewrite uint64_id
        by (unfold uint64_range; rewrite Z.shiftl_mul_pow2 by lia; lia).
      rewrite lor_shiftl_add by lia.
      rewrite Z.shiftr_div_pow2 by lia. change (2 ^ 7) with 128.
      assert (Hp7 : 2 ^ (shift + 7) = 2 ^ shift * 128)
        by (rewrite Z.pow_add_r by lia; reflexivity).
      rewrite IH.
      * f_equal. f_equal. rewrite Hp7. nia.
      * lia.
      * lia.
      * rewrite Hp7. nia.
      * split; [lia|].
        apply Z.div_lt_upper_bound; [lia|].
        replace (7 * (Z.of_nat (S re) + 1)) with (7 + 7 * (Z.of_nat re + 1)) in Hx by lia.
        rewrite Z.pow_add_r in Hx by lia. change (2 ^ 7) with 128 in Hx. lia.
      * rewrite Hp7. nia.
    + cbn [app]. apply decode_final_byte; lia.
Qed.

(** A [uint64] survives [EncodeVarint] followed by [DecodeVarint], and the
    decoder stops exactly at the end of the varint. *)
Lemma DecodeVarint_EncodeVarint x rest :
  uint64_range x -> DecodeVarint (EncodeVarint x ++ rest) = Some (x, rest).
Proof.
  intros Hx. unfold DecodeVarint, EncodeVarint.
  rewrite decode_encode_loop.
  - f_equal. f_equal. lia.
  - lia.
  - lia.
  - change (2 ^ 0) with 1. lia.
  - unfold uint64_range in Hx. change (2 ^ (7 * (Z.of_nat 9 + 1))) with (2 ^ 70). 
    assert (2 ^ 64 < 2 ^ 70) by (apply Z.pow_lt_mono_r; lia). lia.
  - change (2 ^ 0) with 1. unfold uint64_range in Hx. lia.
Qed.

End VarintFacts.

Import Proto Layout Valid.

Arguments EncodeVarint : simpl never.
Arguments DecodeVarint : simpl never.

Section DecodeLoop.
Context {A : Type} (u : unmarshalInfo A).

Lemma EncodeVarint_length x : (1 <= length (EncodeVarint x))%nat.
Proof.
  unfold EncodeVarint. cbn [encodeVarint_loop].
  destruct (127 <? x); cbn [length]; lia.
Qed.

(** More rounds than needed change nothing. *)
Lemma unmarshal_loop_mono f : forall m b el r f',
  unmarshal_loop u f m b el = inr r -> (f <= f')%nat ->
  unmarshal_loop u f' m b el = inr r.
Proof.
  induction f as [|f IH]; intros m b el r f' H Hle.
  - destruct b; [|discriminate H]. destruct f'; exact H.
  - destruct f' as [|f']; [lia|].
    destruct b as [|b0 b]; [exact H|].
    cbn [unmarshal_loop] in H |- *.
    destruct (unmarshal_round u m (b0 :: b) el) as [m' b' el'|e]; [|discriminate H].
    apply IH with (f' := f') in H; [exact H|lia].
Qed.

Lemma decodes_nil m : decodes u m [] m.
Proof. exists O. split; [cbn; lia|reflexivity]. Qed.

Lemma decodes_unmarshal m b r : decodes u m b r -> unmarshal u m b = inr r.
Proof.
  intros [f [Hle H]]. unfold unmarshal.
  eapply unmarshal_loop_mono; eauto.
Qed.

(** One known field, well encoded, is one round of the loop. *)
Lemma decodes_field tag wire name fn payload rest m m' r :
  uint64_range (wiretag tag wire) ->
  Z.shiftr (wiretag tag wire) 3 = tag ->
  Z.land (wiretag tag wire) 7 = wire ->
  ui_dense u tag = Some (name, fn) ->
  fn (payload ++ rest) m wire = Decoded rest m' ->
  decodes u m' rest r ->
  decodes u m (EncodeVarint (wiretag tag wire) ++ payload ++ rest) r.
Proof.
  intros Hrange Htag Hwire Hdense Hfn [f [Hle H]].
  exists (S f). split.
  - pose proof (EncodeVarint_length (wiretag tag wire)).
    rewrite !length_app. lia.
  - pose proof (EncodeVarint_length (wiretag tag wire)) as Hlen.
    destruct (EncodeVarint (wiretag tag wire) ++ payload ++ rest) as [|b0 b] eqn:E.
    { apply (f_equal length) in E. rewrite !length_app in E. cbn in E. lia. }
    cbn [unmarshal_loop]. rewrite <- E.
    unfold unmarshal_round.
    rewrite DecodeVarint_EncodeVarint by exact Hrange.
    rewrite Htag, Hwire, Hdense, Hfn. exact H.
Qed.

End DecodeLoop.

(** ** Field by field: what the encoder writes, the decoder reads back *)
Section Fields.
Context {A : Type}.

Lemma len_ok_range l : len_ok l = true -> uint64_range (Z.of_nat (length l)).
Proof.
  unfold len_ok, uint64_range. intros H%Z.ltb_lt.
  assert (2 ^ 63 < 2 ^ 64) by (apply Z.pow_lt_mono_r; lia). lia.
Qed.

Lemma string_ok_valid v : string_ok v = true -> ValidString v = true.
Proof. unfold string_ok. intros [? ?]%andb_true_iff. assumption. Qed.

Lemma string_ok_len v :
  string_ok v = true -> uint64_range (Z.of_nat (length (String.list_byte_of_string v))).
Proof. unfold string_ok. intros [? ?]%andb_true_iff. by apply len_ok_range. Qed.

Lemma marshal_string (get : A -> string) wt b m :
  string_ok (get m) = true ->
  appendUTF8StringValueNoZero get wt b m = (b ++ enc_string wt (get m), MarshalOk).
Proof.
  intros Hok. unfold appendUTF8StringValueNoZero, enc_string.
  destruct (String.eqb (get m) ""); [by rewrite app_nil_r|].
  by rewrite (string_ok_valid _ Hok).
Qed.

Lemma marshal_varint (get : A -> Z) wt b m :
  appendVarint64ValueNoZero get wt b m = (b ++ enc_varint wt (get m), MarshalOk).
Proof.
  unfold appendVarint64ValueNoZero, enc_varint.
  destruct (get m =? 0); [by rewrite app_nil_r|done].
Qed.

Lemma marshal_bool (get : A -> bool) wt b m :
  appendBoolValueNoZero get wt b m = (b ++ enc_bool wt (get m), MarshalOk).
Proof.
  unfold appendBoolValueNoZero, enc_bool.
  destruct (get m); [done|by rewrite app_nil_r].
Qed.

Lemma marshal_message {B} (sub : marshalInfo B) (get : A -> option B) wt b m :
  (forall p, get m = Some p -> snd (marshal sub [] p) = None) ->
  appendMessagePtr sub get wt b m = (b ++ enc_message sub wt (get m), MarshalOk).
Proof.
  intros Hsub. unfold appendMessagePtr, enc_message.
  destruct (get m) as [p|]; [|by rewrite app_nil_r].
  specialize (Hsub p eq_refl).
  destruct (marshal sub [] p) as [body err]. cbn in Hsub |- *. by subst err.
Qed.

Context (u : unmarshalInfo A).

Lemma decodes_string tag name set v rest m r :
  uint64_range (wiretag tag WireBytes) ->
  Z.shiftr (wiretag tag WireBytes) 3 = tag ->
  Z.land (wiretag tag WireBytes) 7 = WireBytes ->
  ui_dense u tag = Some (name, unmarshalUTF8StringValue set) ->
  string_ok v = true ->
  (v = "" -> set v m = m) ->
  decodes u (set v m) rest r ->
  decodes u m (enc_string (wiretag tag WireBytes) v ++ rest) r.
Proof.
  intros Hrange Htag Hwire Hdense Hok Hzero Hrest. unfold enc_string.
  destruct (String.eqb_spec v "") as [->|Hne].
  - rewrite Hzero in Hrest by reflexivity. exact Hrest.
  - cbv zeta. rewrite <- !app_assoc.
    rewrite (app_assoc (EncodeVarint (Z.of_nat _))).
    eapply decodes_field; eauto.
    unfold unmarshalUTF8StringValue. rewrite Z.eqb_refl. cbn [negb].
    rewrite <- app_assoc.
    rewrite DecodeVarint_EncodeVarint by (by apply string_ok_len).
    rewrite length_app.
    destruct (Z.ltb_spec (Z.of_nat
      (length (String.list_byte_of_string v) + length rest))
      (Z.of_nat (length (String.list_byte_of_string v)))); [lia|].
    rewrite Nat2Z.id, take_app_length, drop_app_length.
    rewrite String.string_of_list_byte_of_string.
    by rewrite (string_ok_valid _ Hok).
Qed.

Lemma decodes_varint tag name conv set v rest m r :
  uint64_range (wiretag tag WireVarint) ->
  Z.shiftr (wiretag tag WireVarint) 3 = tag ->
  Z.land (wiretag tag WireVarint) 7 = WireVarint ->
  ui_dense u tag = Some (name, unmarshalVarintValue conv set) ->
  conv (uint64 v) = v ->
  (v = 0 -> set v m = m) ->
  decodes u (set v m) rest r ->
  decodes u m (enc_varint (wiretag tag WireVarint) v ++ rest) r.
Proof.
  intros Hrange Htag Hwire Hdense Hconv Hzero Hrest. unfold enc_varint.
  destruct (Z.eqb_spec v 0) as [->|Hne].
  - rewrite Hzero in Hrest by reflexivity. exact Hrest.
  - rewrite <- !app_assoc.
    eapply decodes_field; eauto.
    unfold unmarshalVarintValue. rewrite Z.eqb_refl. cbn [negb].
    rewrite DecodeVarint_EncodeVarint by apply uint64_is_range.
    by rewrite Hconv.
Qed.

Lemma decodes_bool tag name set (v : bool) rest m r :
  uint64_range (wiretag tag WireVarint) ->
  Z.shiftr (wiretag tag WireVarint) 3 = tag ->
  Z.land (wiretag tag WireVarint) 7 = WireVarint ->
  ui_dense u tag = Some (name, unmarshalBoolValue set) ->
  (v = false -> set v m = m) ->
  decodes u (set v m) rest r ->
  decodes u m (enc_bool (wiretag tag WireVarint) v ++ rest) r.
Proof.
  intros Hrange Htag Hwire Hdense Hzero Hrest. unfold enc_bool.
  destruct v.
  - rewrite <- !app_assoc.
    eapply decodes_field with (payload := [byte_of_Z 1]) (m' := set true m);
      [exact Hrange|exact Htag|exact Hwire|exact Hdense| |exact Hrest].
    unfold unmarshalBoolValue. rewrite Z.eqb_refl. cbn [negb].
    change [byte_of_Z 1] with (EncodeVarint 1).
    rewrite DecodeVarint_EncodeVarint by (unfold uint64_range; lia).
    reflexivity.
  - rewrite Hzero in Hrest by reflexivity. exact Hrest.
Qed.

Lemma decodes_message {B} (msub : marshalInfo B) (sub : unmarshalInfo B)
    (zero : B) get set tag name (o : option B) rest m r :
  uint64_range (wiretag tag WireBytes) ->
  Z.shiftr (wiretag tag WireBytes) 3 = tag ->
  Z.land (wiretag tag WireBytes) 7 = WireBytes ->
  ui_dense u tag = Some (name, unmarshalMessagePtr sub zero get set) ->
  get m = None ->
  (forall p, o = Some p ->
     len_ok (fst (marshal msub [] p)) = true /\
     unmarshal sub zero (fst (marshal msub [] p)) = inr p) ->
  (o = None -> set o m = m) ->
  decodes u (set o m) rest r ->
  decodes u m (enc_message msub (wiretag tag WireBytes) o ++ rest) r.
Proof.
  intros Hrange Htag Hwire Hdense Hnil Hsub Hzero Hrest. unfold enc_message.
  destruct o as [p|].
  - destruct (Hsub p eq_refl) as [Hlen Hdec].
    cbv zeta. rewrite <- !app_assoc.
    rewrite (app_assoc (EncodeVarint (Z.of_nat _))).
    eapply decodes_field; eauto.
    unfold unmarshalMessagePtr. rewrite Z.eqb_refl. cbn [negb].
    rewrite <- app_assoc.
    rewrite DecodeVarint_EncodeVarint by (by apply len_ok_range).
    rewrite length_app.
    destruct (Z.ltb_spec (Z.of_nat
      (length (fst (marshal msub [] p)) + length rest))
      (Z.of_nat (length (fst (marshal msub [] p))))); [lia|].
    rewrite Nat2Z.id, take_app_length, drop_app_length.
    by rewrite Hnil, Hdec.
  - rewrite Hzero in Hrest by reflexivity. exact Hrest.
Qed.

End Fields.

(** ** Round trip of the three messages *)
Section RoundTrip.

Ltac tag_fact :=
  first [ reflexivity
        | unfold uint64_range; split; by vm_compute ].

Ltac split_valid H :=
  repeat match type of H with
         | (_ && _) = true => let H' := fresh "Hv" in apply andb_true_iff in H as [H H']
         end.

Lemma marshal_fields_step {A} typ (f : marshalFieldInfo A) fs b m el enc :
  mf_marshaler f b m = (b ++ enc, MarshalOk) ->
  marshal_fields typ (f :: fs) b m el = marshal_fields typ fs (b ++ enc) m el.
Proof. intros H. cbn [marshal_fields]. by rewrite H. Qed.

Ltac scalar_fields :=
  repeat (erewrite marshal_fields_step;
          [|cbn [mf_marshaler];
            first [ apply marshal_string; assumption
                  | apply marshal_varint
                  | apply marshal_bool ]]).

Lemma nil_bytes_nil l : nil_bytes l = true -> l = [].
Proof. by destruct l. Qed.

Lemma Credentials_marshal c :
  Credentials_valid c = true ->
  marshal Credentials_marshalInfo [] c
  = (enc_string (wiretag 1 WireBytes) (User c)
     ++ enc_string (wiretag 2 WireBytes) (Password c), None).
Proof.
  intros H. unfold Credentials_valid in H. split_valid H.
  unfold marshal, Credentials_marshalInfo.
  cbn [mi_fields mi_typ mi_unrecognized].
  scalar_fields. cbn [marshal_fields].
  apply nil_bytes_nil in Hv0. rewrite Hv0.
  by rewrite app_nil_r, app_nil_l.
Qed.

Lemma Credentials_roundtrip c :
  Credentials_valid c = true ->
  unmarshal Credentials_unmarshalInfo Credentials_zero
            (fst (marshal Credentials_marshalInfo [] c)) = inr c.
Proof.
  intros H. rewrite Credentials_marshal by exact H. cbn [fst].
  unfold Credentials_valid in H. split_valid H.
  apply nil_bytes_nil in Hv0.
  apply decodes_unmarshal.
  eapply decodes_string; [tag_fact..|assumption|by intros ->|].
  rewrite <- (app_nil_r (enc_string _ (Password c))).
  eapply decodes_string; [tag_fact..|assumption|by intros ->|].
  destruct c; cbn in *; subst. apply decodes_nil.
Qed.

Lemma TlsConfig_marshal t :
  TlsConfig_valid t = true ->
  marshal TlsConfig_marshalInfo [] t
  = (enc_string (wiretag 3 WireBytes) (CaCert t)
     ++ enc_string (wiretag 4 WireBytes) (Cert t)
     ++ enc_string (wiretag 5 WireBytes) (Key t)
     ++ enc_bool (wiretag 6 WireVarint) (Plain t)
     ++ enc_bool (wiretag 7 WireVarint) (Insecure t), None).
Proof.
  intros H. unfold TlsConfig_valid in H. split_valid H.
  unfold marshal, TlsConfig_marshalInfo.
  cbn [mi_fields mi_typ mi_unrecognized].
  scalar_fields. cbn [marshal_fields].
  apply nil_bytes_nil in Hv0. rewrite Hv0.
  by rewrite app_nil_r, app_nil_l, <- !app_assoc.
Qed.

Lemma TlsConfig_roundtrip t :
  TlsConfig_valid t = true ->
  unmarshal TlsConfig_unmarshalInfo TlsConfig_zero
            (fst (marshal TlsConfig_marshalInfo [] t)) = inr t.
Proof.
  intros H. rewrite TlsConfig_marshal by exact H. cbn [fst].
  unfold TlsConfig_valid in H. split_valid H.
  apply nil_bytes_nil in Hv0.
  apply decodes_unmarshal.
  eapply decodes_string; [tag_fact..|assumption|by intros ->|].
  eapply decodes_string; [tag_fact..|assumption|by intros ->|].
  eapply decodes_string; [tag_fact..|assumption|by intros ->|].
  eapply decodes_bool; [tag_fact..|by intros ->|].
  rewrite <- (app_nil_r (enc_bool _ (Insecure t))).
  eapply decodes_bool; [tag_fact..|by intros ->|].
  destruct t; cbn in *; subst. apply decodes_nil.
Qed.

Lemma Device_marshal d :
  Device_valid d = true ->
  marshal Device_marshalInfo [] d
  = (enc_string (wiretag 1 WireBytes) (ID d)
     ++ enc_varint (wiretag 2 WireVarint) (Revision d)
     ++ enc_string (wiretag 3 WireBytes) (Address d)
     ++ enc_string (wiretag 4 WireBytes) (Target d)
     ++ enc_string (wiretag 5 WireBytes) (SoftwareVersion d)
     ++ enc_varint (wiretag 6 WireVarint) (Timeout d)
     ++ enc_message Credentials_marshalInfo (wiretag 7 WireBytes) (Creds d)
     ++ enc_message TlsConfig_marshalInfo (wiretag 8 WireBytes) (Tls d), None).
Proof.
  intros H. unfold Device_valid in H. split_valid H.
  unfold marshal, Device_marshalInfo.
  cbn [mi_fields mi_typ mi_unrecognized].
  scalar_fields.
  erewrite marshal_fields_step.
  2:{ cbn [mf_marshaler]. apply marshal_message.
      intros p Hp. rewrite Hp in Hv1. by rewrite Credentials_marshal. }
  erewrite marshal_fields_step.
  2:{ cbn [mf_marshaler]. apply marshal_message.
      intros p Hp. rewrite Hp in Hv0. by rewrite TlsConfig_marshal. }
  cbn [marshal_fields].
  apply nil_bytes_nil in Hv. rewrite Hv.
  by rewrite app_nil_r, app_nil_l, <- !app_assoc.
Qed.

(** [proto.Marshal] accepts every valid device ... *)
Lemma Marshal_valid d :
  Device_valid d = true -> exists b, Marshal d = Ok b.
Proof.
  intros H. unfold Marshal. rewrite Device_marshal by exact H. eauto.
Qed.

(** ... and [proto.Unmarshal] gives the device back from its bytes. *)
Lemma Unmarshal_Marshal d b :
  Device_valid d = true -> Marshal d = Ok b ->
  Unmarshal b = Ok d.
Proof.
  intros H HM. unfold Marshal in HM. rewrite Device_marshal in HM by exact H.
  injection HM as <-. unfold Unmarshal.
  unfold Device_valid in H. split_valid H.
  apply nil_bytes_nil in Hv.
  apply Z.leb_le in Hv8, Hv3. apply Z.ltb_lt in Hv7, Hv2.
  erewrite decodes_unmarshal; [reflexivity|].
  eapply decodes_string; [tag_fact..|assumption|by intros ->|].
  eapply decodes_varint; [tag_fact..| |by intros ->|].
  { rewrite !(uint64_id (Revision d)) by (unfold uint64_range; lia). reflexivity. }
  eapply decodes_string; [tag_fact..|assumption|by intros ->|].
  eapply decodes_string; [tag_fact..|assumption|by intros ->|].
  eapply decodes_string; [tag_fact..|assumption|by intros ->|].
  eapply decodes_varint; [tag_fact..| |by intros ->|].
  { apply int64_uint64. unfold int64_range. lia. }
  eapply decodes_message; [tag_fact..|reflexivity| |by intros ->|].
  { intros p Hp. rewrite Hp in Hv1. split.
    - unfold Credentials_valid in Hv1. by apply andb_true_iff in Hv1 as [_ ?].
    - by apply Credentials_roundtrip. }
  rewrite <- (app_nil_r (enc_message _ _ (Tls d))).
  eapply decodes_message; [tag_fact..|reflexivity| |by intros ->|].
  { intros p Hp. rewrite Hp in Hv0. split.
    - unfold TlsConfig_valid in Hv0. by apply andb_true_iff in Hv0 as [_ ?].
    - by apply TlsConfig_roundtrip. }
  destruct d; cbn in *; subst. apply decodes_nil.
Qed.

End RoundTrip.

(* ===================================================================== *)
(** ** The round counters are generous enough *)
(* ===================================================================== *)

(** The decoding loops are written with a counter of rounds.  Every round
    consumes at least one byte, so the bound [length b] that [unmarshal]
    and [skipField] start from is never what ends a loop. *)
Section Rounds.

Lemma decodeVarint_loop_shrinks r : forall shift acc b x rest,
  decodeVarint_loop r shift acc b = Some (x, rest) ->
  (length rest < length b)%nat.
Proof.
  induction r as [|r IH]; intros shift acc b x rest; [discriminate|].
  cbn [decodeVarint_loop]. destruct b as [|b0 b]; [discriminate|].
  destruct (Z.land (byte_to_Z b0) 128 =? 0).
  - intros [= _ <-]. cbn. lia.
  - intros Hrec%IH. cbn. lia.
Qed.

Lemma DecodeVarint_shrinks b x rest :
  DecodeVarint b = Some (x, rest) -> (length rest < length b)%nat.
Proof. apply decodeVarint_loop_shrinks. Qed.

Lemma findEndGroup_shrinks f : forall depth b rest,
  findEndGroup f depth b = Some rest -> (length rest <= length b)%nat.
Proof.
  induction f as [|f IH]; intros depth b rest; [discriminate|].
  cbn [findEndGroup].
  destruct (DecodeVarint b) as [[x b1]|] eqn:E; [|discriminate].
  apply DecodeVarint_shrinks in E.
  repeat match goal with
         | |- context [if ?c then _ else _] => destruct c
         | |- context [match DecodeVarint ?l with _ => _ end] =>
             let E' := fresh "E" in
             destruct (DecodeVarint l) as [[? ?]|] eqn:E';
             [apply DecodeVarint_shrinks in E'|]
         | |- context [match ?d with O => _ | S _ => _ end] => destruct d
         | |- None = Some _ -> _ => discriminate
         | |- Some _ = Some _ -> _ => intros [= <-]; lia
         | |- findEndGroup f _ _ = Some _ -> _ =>
             let H := fresh "H" in
             intros H%IH; rewrite ?length_drop in H; lia
         end.
Qed.

Lemma findEndGroup_rounds f : forall f' depth b,
  (length b <= f)%nat -> (length b <= f')%nat ->
  findEndGroup f depth b = findEndGroup f' depth b.
Proof.
  induction f as [|f IH]; intros f' depth b Hf Hf'.
  - destruct b; [|cbn in Hf; lia]. by destruct f'.
  - destruct f' as [|f'].
    { destruct b; [|cbn in Hf'; lia]. reflexivity. }
    cbn [findEndGroup].
    destruct (DecodeVarint b) as [[x b1]|] eqn:E; [|done].
    apply DecodeVarint_shrinks in E.
    repeat match goal with
           | |- context [if ?c then _ else _] => destruct c
           | |- context [match DecodeVarint ?l with _ => _ end] =>
               let E' := fresh "E" in
               destruct (DecodeVarint l) as [[? ?]|] eqn:E';
               [apply DecodeVarint_shrinks in E'|]
           | |- context [match ?d with O => _ | S _ => _ end] => destruct d
           | |- ?x = ?x => reflexivity
           | |- findEndGroup f _ _ = findEndGroup f' _ _ =>
               apply IH; rewrite ?length_drop; lia
           end.
Qed.

Lemma skipField_shrinks b wire rest :
  skipField b wire = inr rest -> (length rest <= length b)%nat.
Proof.
  unfold skipField.
  repeat match goal with
         | |- context [if ?c then _ else _] => destruct c
         | |- context [match DecodeVarint ?l with _ => _ end] =>
             let E' := fresh "E" in
             destruct (DecodeVarint l) as [[? ?]|] eqn:E';
             [apply DecodeVarint_shrinks in E'|]
         | |- context [match findEndGroup ?f ?d ?l with _ => _ end] =>
             let E' := fresh "E" in
             destruct (findEndGroup f d l) eqn:E';
             [apply findEndGroup_shrinks in E'|]
         | |- inl _ = inr _ -> _ => discriminate
         | |- inr _ = inr _ -> _ => intros [= <-]; rewrite ?length_drop; lia
         end.
Qed.

Ltac field_shrinks :=
  repeat match goal with
         | |- context [if ?c then _ else _] => destruct c
         | |- context [match DecodeVarint ?l with _ => _ end] =>
             let E' := fresh "E" in
             destruct (DecodeVarint l) as [[? ?]|] eqn:E';
             [apply DecodeVarint_shrinks in E'|]
         | |- context [match unmarshal ?u ?v ?l with _ => _ end] =>
             destruct (unmarshal u v l)
         | |- _ \/ _ -> _ => intros [?|?]
         | H : Decoded _ _ = Decoded _ _ |- _ =>
             injection H as <- <-; rewrite ?length_drop; lia
         | H : DecodedInvalidUTF8 _ _ = DecodedInvalidUTF8 _ _ |- _ =>
             injection H as <- <-; rewrite ?length_drop; lia
         | H : _ = _ |- _ => discriminate H
         end.

Lemma unmarshalUTF8StringValue_shrinks {A} (set : string -> A -> A) b m wire rest m' :
  unmarshalUTF8StringValue set b m wire = Decoded rest m'
  \/ unmarshalUTF8StringValue set b m wire = DecodedInvalidUTF8 rest m' ->
  (length rest <= length b)%nat.
Proof. unfold unmarshalUTF8StringValue. field_shrinks. Qed.

Lemma unmarshalVarintValue_shrinks {A} conv (set : Z -> A -> A) b m wire rest m' :
  unmarshalVarintValue conv set b m wire = Decoded rest m'
  \/ unmarshalVarintValue conv set b m wire = DecodedInvalidUTF8 rest m' ->
  (length rest <= length b)%nat.
Proof. unfold unmarshalVarintValue. field_shrinks. Qed.

Lemma unmarshalBoolValue_shrinks {A} (set : bool -> A -> A) b m wire rest m' :
  unmarshalBoolValue set b m wire = Decoded rest m'
  \/ unmarshalBoolValue set b m wire = DecodedInvalidUTF8 rest m' ->
  (length rest <= length b)%nat.
Proof. unfold unmarshalBoolValue. field_shrinks. Qed.

Lemma unmarshalMessagePtr_shrinks {A B} (sub : unmarshalInfo B) zero get
    (set : option B -> A -> A) b m wire rest m' :
  unmarshalMessagePtr sub zero get set b m wire = Decoded rest m'
  \/ unmarshalMessagePtr sub zero get set b m wire = DecodedInvalidUTF8 rest m' ->
  (length rest <= length b)%nat.
Proof. unfold unmarshalMessagePtr. field_shrinks. Qed.

Ltac table_shrinks :=
  intros tag name fn b m wire rest m' Hdense Hfn;
  cbv [ui_dense Credentials_unmarshalInfo TlsConfig_unmarshalInfo
       Device_unmarshalInfo] in Hdense;
  repeat match type of Hdense with
         | (if ?c then _ else _) = _ => destruct c
         end;
  try discriminate Hdense; injection Hdense as _ <-;
  eauto using unmarshalUTF8StringValue_shrinks, unmarshalVarintValue_shrinks,
              unmarshalBoolValue_shrinks, unmarshalMessagePtr_shrinks.

Lemma Credentials_shrinking : shrinking Credentials_unmarshalInfo.
Proof. table_shrinks. Qed.

Lemma TlsConfig_shrinking : shrinking TlsConfig_unmarshalInfo.
Proof. table_shrinks. Qed.

Lemma Device_shrinking : shrinking Device_unmarshalInfo.
Proof. table_shrinks. Qed.

Lemma unmarshal_round_shrinks {A} (u : unmarshalInfo A) m b el m' b' el' :
  shrinking u ->
  unmarshal_round u m b el = Continue m' b' el' ->
  (length b' < length b)%nat.
Proof.
  intros Hu. unfold unmarshal_round.
  destruct (DecodeVarint b) as [[x b1]|] eqn:E; [|discriminate].
  apply DecodeVarint_shrinks in E.
  assert (Hunknown :
    match skipField b1 (Z.land x 7) with
    | inl e => Return e
    | inr b2 =>
        Continue (ui_set_unrecognized u
                    (ui_unrecognized u m
                     ++ EncodeVarint (wiretag (Z.shiftr x 3) (Z.land x 7))
                     ++ take (length b1 - length b2) b1) m) b2 el
    end = Continue m' b' el' -> (length b' < length b)%nat).
  { destruct (skipField b1 (Z.land x 7)) as [e|b2] eqn:Es; [discriminate|].
    apply skipField_shrinks in Es. intros [= _ <- _]. lia. }
  destruct (ui_dense u (Z.shiftr x 3)) as [[name fn]|] eqn:Ed; [|exact Hunknown].
  destruct (fn b1 m (Z.land x 7)) as [b2 m2|b2 m2| |e] eqn:Ef.
  - intros [= _ <- _]. pose proof (Hu _ _ _ _ _ _ _ _ Ed (or_introl Ef)). lia.
  - intros [= _ <- _]. pose proof (Hu _ _ _ _ _ _ _ _ Ed (or_intror Ef)). lia.
  - exact Hunknown.
  - discriminate.
Qed.

(** With a shrinking table, any two counters that cover the length of
    the input give the same result: the loop ends on the input, never on
    the counter. *)
Lemma unmarshal_loop_rounds {A} (u : unmarshalInfo A) f :
  shrinking u ->
  forall f' m b el,
    (length b <= f)%nat -> (length b <= f')%nat ->
    unmarshal_loop u f m b el = unmarshal_loop u f' m b el.
Proof.
  intros Hu. induction f as [|f IH]; intros f' m b el Hf Hf'.
  - destruct b; [|cbn in Hf; lia]. by destruct f'.
  - destruct b as [|b0 b]; [by destruct f'|].
    destruct f' as [|f']; [cbn in Hf'; lia|].
    cbn [unmarshal_loop].
    destruct (unmarshal_round u m (b0 :: b) el) as [m' b' el'|e] eqn:E; [|done].
    apply unmarshal_round_shrinks in E; [|exact Hu].
    apply IH; cbn in *; lia.
Qed.

Lemma Unmarshal_rounds value f :
  (length value <= f)%nat ->
  match unmarshal_loop Device_unmarshalInfo f Device_zero value None with
  | inr d => Ok d
  | inl e => Err (DecodeError e)
  end = Unmarshal value.
Proof.
  intros Hf. unfold Unmarshal, unmarshal.
  by rewrite (unmarshal_loop_rounds _ f Device_shrinking (length value)).
Qed.

End Rounds.

(** ** The reference map honours the contract *)
Section LocalMapContract.

Lemma LocalMap_Get_entries (m : LocalMap.t) k r :
  Get m k = Ok r ->
  r = (fun e => KeyValue.mk k (fst e) (snd e)) <$> (LocalMap.content m !! k).
Proof. cbn. unfold LocalMap.Get. by intros [= <-]. Qed.

Lemma LocalMap_Put_unconditional (m : LocalMap.t) k v m' r :
  Put m k v [] = (m', r) ->
  match r with
  | Ok kv => KeyValue.Key kv = k /\ KeyValue.Value kv = v
             /\ LocalMap.content m' = <[k := (v, KeyValue.Version kv)]> (LocalMap.content m)
  | Err e => e <> ConflictError
  end.
Proof. cbn. unfold LocalMap.Put, LocalMap.write. cbn. by intros [= <- <-]. Qed.

Lemma LocalMap_Put_expected (m : LocalMap.t) k v ver m' kv :
  Put m k v [WithVersion ver] = (m', Ok kv) ->
  (exists old, LocalMap.content m !! k = Some (old, ver))
  /\ KeyValue.Key kv = k /\ KeyValue.Value kv = v
  /\ LocalMap.content m' = <[k := (v, KeyValue.Version kv)]> (LocalMap.content m).
Proof.
  cbn. unfold LocalMap.Put, LocalMap.write. cbn.
  destruct (LocalMap.content m !! k) as [[old cur]|]; [|discriminate].
  destruct (Z.eqb_spec cur ver) as [->|]; [|discriminate].
  intros [= <- <-]. cbn. eauto.
Qed.

Lemma LocalMap_Put_conflict (m : LocalMap.t) k v ver :
  (forall old, LocalMap.content m !! k <> Some (old, ver)) ->
  exists m', Put m k v [WithVersion ver] = (m', Err ConflictError)
             /\ LocalMap.content m' = LocalMap.content m.
Proof.
  intros Hno. exists m. split; [|done].
  cbn. unfold LocalMap.Put. cbn.
  destruct (LocalMap.content m !! k) as [[old cur]|] eqn:E; [|done].
  destruct (Z.eqb_spec cur ver) as [->|]; [|done].
  by destruct (Hno old).
Qed.

Lemma LocalMap_Remove_absent (m : LocalMap.t) k opts :
  LocalMap.content m !! k = None ->
  exists m' r, Remove m k opts = (m', Ok r) /\ LocalMap.content m' = LocalMap.content m.
Proof.
  intros Hnone. exists m, None. cbn. unfold LocalMap.Remove. by rewrite Hnone.
Qed.

Lemma LocalMap_Remove_unconditional (m : LocalMap.t) k m' r :
  Remove m k [] = (m', r) ->
  match r with
  | Ok _ => LocalMap.content m' = delete k (LocalMap.content m)
  | Err e => e <> ConflictError
  end.
Proof.
  cbn. unfold LocalMap.Remove. cbn.
  destruct (LocalMap.content m !! k) as [[old cur]|] eqn:E.
  - by intros [= <- <-].
  - intros [= <- <-]. symmetry. by apply delete_id.
Qed.

Lemma LocalMap_Remove_expected (m : LocalMap.t) k ver m' r :
  Remove m k [WithVersion ver] = (m', Ok r) ->
  (LocalMap.content m !! k = None
   \/ exists old, LocalMap.content m !! k = Some (old, ver))
  /\ LocalMap.content m' = delete k (LocalMap.content m).
Proof.
  cbn. unfold LocalMap.Remove. cbn.
  destruct (LocalMap.content m !! k) as [[old cur]|] eqn:E.
  - destruct (Z.eqb_spec cur ver) as [->|]; [|discriminate].
    intros [= <- <-]. cbn. eauto.
  - intros [= <- <-]. split; [by left|]. symmetry. by apply delete_id.
Qed.

Lemma LocalMap_Remove_conflict (m : LocalMap.t) k ver old cur :
  LocalMap.content m !! k = Some (old, cur) -> cur <> ver ->
  exists m', Remove m k [WithVersion ver] = (m', Err ConflictError)
             /\ LocalMap.content m' = LocalMap.content m.
Proof.
  intros E Hne. exists m. split; [|done].
  cbn. unfold LocalMap.Remove. cbn. rewrite E.
  by destruct (Z.eqb_spec cur ver).
Qed.

End LocalMapContract.

#[export] Instance LocalMap_Contract : MapContract LocalMap.t := {|
  entries := LocalMap.content;
  Get_entries := LocalMap_Get_entries;
  Put_unconditional := LocalMap_Put_unconditional;
  Put_expected := LocalMap_Put_expected;
  Put_conflict := LocalMap_Put_conflict;
  Remove_absent := LocalMap_Remove_absent;
  Remove_unconditional := LocalMap_Remove_unconditional;
  Remove_expected := LocalMap_Remove_expected;
  Remove_conflict := LocalMap_Remove_conflict
|}.

(* ===================================================================== *)
(** ** What is written to the map, and what is read back *)
(* ===================================================================== *)

Section Codec.


(** C2.  For every valid device [d], [proto.Marshal] produces bytes, and
    [decodeDevice] on these bytes, with whatever key and version the map
    entry has, returns [d] in every field except id and revision; the id
    is the key and the revision is the version (as a [Revision]),
    whatever id and revision the payload holds. *)
Theorem decodeDevice_Marshal (d : Device) :
  Device_valid d = true ->
  exists bytes,
    Marshal d = Ok bytes /\
    forall key version,
      decodeDevice key bytes version
      = Ok (mkDevice key (uint64 version) (Address d) (Target d)
                     (SoftwareVersion d) (Timeout d) (Creds d) (Tls d)
                     (XXX_unrecognized d)).
Proof.
  intros Hv. destruct (Marshal_valid d Hv) as [bytes HM].
  exists bytes. split; [exact HM|]. intros key version.
  unfold decodeDevice. rewrite (Unmarshal_Marshal d bytes Hv HM).
  reflexivity.
Qed.

Lemma decodeDevice_Marshal_witness :
  exists bytes,
    Marshal Scenario.d1_moved = Ok bytes /\
    forall key version,
      decodeDevice key bytes version
      = Ok (mkDevice key (uint64 version) "10.0.0.2:830" "" "" 0 None None []).
Proof. apply (decodeDevice_Marshal Scenario.d1_moved). vm_compute. reflexivity. Defined.




End Codec.

(* ===================================================================== *)
(** ** Load, Store and Delete over any map *)
(* ===================================================================== *)

Section AnyMap.
Context {M : Type} `{Map M}.

Lemma Unmarshal_error value err :
  Unmarshal value = Err err -> exists why, err = DecodeError why.
Proof.
  unfold Unmarshal. destruct (unmarshal _ _ _); [|discriminate].
  intros [= <-]. eauto.
Qed.

(** C6.  [Load] of an id for which the map answers with no entry returns
    the empty result [nil, nil]; for an entry whose value does not parse
    it returns the error of the decoder, a DecodeError; for any other
    entry it returns the decoded device, with the key and the version of
    the entry as id and revision. *)
Theorem Load_outcomes (s : M) (deviceID : string) :
  (Get s deviceID = Ok None -> atomixStore.Load s deviceID = Ok None)
  /\ (forall kv err,
        Get s deviceID = Ok (Some kv) ->
        Unmarshal (KeyValue.Value kv) = Err err ->
        atomixStore.Load s deviceID = Err err
        /\ exists why, err = DecodeError why)
  /\ (forall kv device,
        Get s deviceID = Ok (Some kv) ->
        Unmarshal (KeyValue.Value kv) = Ok device ->
        atomixStore.Load s deviceID
        = Ok (Some (set_Revision (uint64 (KeyValue.Version kv))
                                 (set_ID (KeyValue.Key kv) device)))).
Proof.
  unfold atomixStore.Load, decodeDevice. split; [|split].
  - by intros ->.
  - intros kv err -> Herr. split; [by rewrite Herr|by eapply Unmarshal_error].
  - intros kv device -> ->. reflexivity.
Qed.

(** C10.  When [Store] returns an error, whichever it is, the caller's
    device is what it was before the call. *)
Theorem Store_error_keeps_device (s s' : M) (device device' : Device) (err : error) :
  atomixStore.Store s device = (s', device', Some err) -> device' = device.
Proof.
  unfold atomixStore.Store.
  destruct (Marshal device) as [bytes|e]; [|by intros [= _ <- _]].
  destruct (Revision device =? 0).
  - destruct (Put s (ID device) bytes []) as [s1 [kv|e]]; [discriminate|].
    by intros [= _ <- _].
  - destruct (Put s (ID device) bytes _) as [s1 [kv|e]]; [discriminate|].
    by intros [= _ <- _].
Qed.

End AnyMap.

Lemma Load_outcomes_witness :
  atomixStore.Load Scenario.m2 "d9" = Ok None
  /\ atomixStore.Load Scenario.broken "d2" = Err (DecodeError ErrUnexpectedEOF)
  /\ atomixStore.Load Scenario.m2 "d1"
     = Ok (Some (mkDevice "d1" 2 "10.0.0.2:830" "" "" 0 None None [])).
Proof.
  split; [|split].
  - apply (proj1 (Load_outcomes Scenario.m2 "d9")). vm_compute. reflexivity.
  - eapply (proj1 (proj2 (Load_outcomes Scenario.broken "d2"))
              (KeyValue.mk "d2" ["010"%byte; "005"%byte] 1)).
    + vm_compute. reflexivity.
    + vm_compute. reflexivity.
  - apply (proj2 (proj2 (Load_outcomes Scenario.m2 "d1"))
             (KeyValue.mk "d1"
                Scenario.d1_moved_bytes 2)
             Scenario.d1_moved).
    + vm_compute. reflexivity.
    + vm_compute. reflexivity.
Defined.

Lemma Store_error_keeps_device_witness :
  (atomixStore.Store Scenario.m2 Scenario.d1_stale).1.2 = Scenario.d1_stale.
Proof.
  apply (Store_error_keeps_device Scenario.m2 Scenario.m2 Scenario.d1_stale _ ConflictError).
  vm_compute. reflexivity.
Defined.

(* ===================================================================== *)
(** ** Store and Delete over a map that honours the contract *)
(* ===================================================================== *)

Section ContractMap.
Context {M : Type} `{MapContract M}.

(** What a successful [Store] has done. *)
Lemma Store_success (s s' : M) (device device' : Device) :
  atomixStore.Store s device = (s', device', None) ->
  exists bytes kv,
    Marshal device = Ok bytes
    /\ Put s (ID device) bytes
           (if Revision device =? 0 then []
            else [WithVersion (int64 (Revision device))]) = (s', Ok kv)
    /\ device' = set_Revision (uint64 (KeyValue.Version kv)) device
    /\ entries s' !! ID device = Some (bytes, KeyValue.Version kv).
Proof.
  unfold atomixStore.Store.
  destruct (Marshal device) as [bytes|e]; [|discriminate].
  destruct (Revision device =? 0).
  - destruct (Put s (ID device) bytes []) as [s1 [kv|e]] eqn:E; [|discriminate].
    intros [= <- <-]. exists bytes, kv. repeat split; try done.
    apply Put_unconditional in E as (_ & _ & ->). apply lookup_insert_eq.
  - destruct (Put s (ID device) bytes _) as [s1 [kv|e]] eqn:E; [|discriminate].
    intros [= <- <-]. exists bytes, kv. repeat split; try done.
    apply Put_expected in E as (_ & _ & _ & ->). apply lookup_insert_eq.
Qed.


(** The device that [Store] hands back is the device that [Load] then
    finds, as long as nobody else has written in between. *)
Lemma Load_after_Store (s s' : M) (device device' : Device) r :
  Device_valid device = true ->
  atomixStore.Store s device = (s', device', None) ->
  Get s' (ID device) = Ok r ->
  atomixStore.Load s' (ID device) = Ok (Some device').
Proof.
  intros Hvalid Hstore Hget.
  apply Store_success in Hstore as (bytes & kv & HM & _ & -> & Hentry).
  unfold atomixStore.Load. rewrite Hget.
  apply Get_entries in Hget. rewrite Hentry in Hget. subst r. cbn.
  unfold decodeDevice. rewrite (Unmarshal_Marshal device bytes Hvalid HM).
  unfold Device_valid in Hvalid.
  repeat (apply andb_true_iff in Hvalid as [Hvalid _]).
  by destruct device.
Qed.

(** C1.  [Store] of a device that encodes to [bytes]:
    - at revision 0 it is the map's unconditional put of [bytes] under
      the key [device.ID]: it cannot fail with ConflictError, and when
      it succeeds the entry of that key holds [bytes], whatever was
      there before;
    - at a revision above 0 it is the map's put of [bytes] under the
      same key on condition of the version [int64(device.Revision)]:
      it succeeds only if the key has an entry whose version is
      [device.Revision], and when there is no such entry it fails with
      ConflictError and leaves map and device as they were. *)
Theorem Store_put_discipline (s : M) (device : Device) (bytes : list byte) :
  Marshal device = Ok bytes ->
  uint64_range (Revision device) ->
  (Revision device = 0 ->
     (atomixStore.Store s device).1.1 = (Put s (ID device) bytes []).1
     /\ (atomixStore.Store s device).2 = error_of (Put s (ID device) bytes []).2
     /\ (atomixStore.Store s device).2 <> Some ConflictError
     /\ forall s' device',
          atomixStore.Store s device = (s', device', None) ->
          exists ver, entries s' = <[ID device := (bytes, ver)]> (entries s))
  /\ (0 < Revision device ->
     (atomixStore.Store s device).1.1
     = (Put s (ID device) bytes [WithVersion (int64 (Revision device))]).1
     /\ (atomixStore.Store s device).2
        = error_of (Put s (ID device) bytes [WithVersion (int64 (Revision device))]).2
     /\ (forall s' device',
           atomixStore.Store s device = (s', device', None) ->
           exists old ver,
             entries s !! ID device = Some (old, ver)
             /\ uint64 ver = Revision device)
     /\ ((forall old ver,
            entries s !! ID device = Some (old, ver) ->
            uint64 ver <> Revision device) ->
         exists s',
           atomixStore.Store s device = (s', device, Some ConflictError)
           /\ entries s' = entries s)).
Proof.
  intros HM Hrange. unfold atomixStore.Store. rewrite HM. split.
  - intros ->. cbn [Z.eqb].
    destruct (Put s (ID device) bytes []) as [s1 r] eqn:E.
    apply Put_unconditional in E. destruct r as [kv|e]; cbn.
    + repeat split; try done.
      intros s' device' [= <- _]. destruct E as (_ & _ & ->). eauto.
    + repeat split; try done. congruence.
  - intros Hpos. destruct (Z.eqb_spec (Revision device) 0) as [?|_]; [lia|].
    destruct (Put s (ID device) bytes _) as [s1 r] eqn:E.
    split; [by destruct r|]. split; [by destruct r|]. split.
    + intros s' device' Hok. destruct r as [kv|e]; [|discriminate].
      apply Put_expected in E as [[old Hold] _].
      exists old, (int64 (Revision device)). split; [exact Hold|].
      by apply uint64_int64.
    + intros Hno.
      destruct (Put_conflict s (ID device) bytes (int64 (Revision device)))
        as (s2 & E2 & Hsame).
      { intros old Hold. apply (Hno _ _ Hold). by apply uint64_int64. }
      rewrite E2 in E. injection E as <- <-. eauto.
Qed.

(** C5.  [Delete] of a device:
    - at a revision above 0 it is the map's remove of the key
      [device.ID] on condition of the version [int64(device.Revision)]:
      if the key has an entry at another version it fails with
      ConflictError and the map keeps its content, and it succeeds only
      if the key has no entry or one at exactly that version;
    - at revision 0 it is the map's unconditional remove: it cannot fail
      with ConflictError, whatever the version of the entry;
    - when the key has no entry it returns no error, at any revision. *)
Theorem Delete_discipline (s : M) (device : Device) :
  uint64_range (Revision device) ->
  (0 < Revision device ->
     Delete_is s device [WithVersion (int64 (Revision device))]
     /\ (forall old ver,
           entries s !! ID device = Some (old, ver) ->
           uint64 ver <> Revision device ->
           exists s', atomixStore.Delete s device = (s', Some ConflictError)
                      /\ entries s' = entries s)
     /\ (forall s',
           atomixStore.Delete s device = (s', None) ->
           (entries s !! ID device = None
            \/ exists old ver, entries s !! ID device = Some (old, ver)
                               /\ uint64 ver = Revision device)
           /\ entries s' = delete (ID device) (entries s)))
  /\ (Revision device = 0 ->
     Delete_is s device []
     /\ (atomixStore.Delete s device).2 <> Some ConflictError
     /\ (forall s',
           atomixStore.Delete s device = (s', None) ->
           entries s' = delete (ID device) (entries s)))
  /\ (entries s !! ID device = None ->
      exists s', atomixStore.Delete s device = (s', None)
                 /\ entries s' = entries s).
Proof.
  intros Hrange. unfold Delete_is, atomixStore.Delete. split; [|split].
  - intros Hpos. destruct (Z.ltb_spec 0 (Revision device)) as [_|?]; [|lia].
    split; [by destruct (Remove s (ID device) _)|]. split.
    + intros old ver Hold Hne.
      destruct (Remove_conflict s (ID device) (int64 (Revision device)) old ver Hold)
        as (s2 & -> & Hsame).
      { intros ->. apply Hne. by apply uint64_int64. }
      eauto.
    + intros s'. destruct (Remove s (ID device) _) as [s1 [r|e]] eqn:E; [|discriminate].
      intros [= <-]. apply Remove_expected in E as [[Hnone|[old Hold]] ->].
      * split; [by left|done].
      * split; [|done]. right. exists old, (int64 (Revision device)).
        split; [exact Hold|by apply uint64_int64].
  - intros ->. cbn [Z.ltb Z.compare].
    destruct (Remove s (ID device) []) as [s1 r] eqn:E.
    apply Remove_unconditional in E. destruct r as [r|e]; cbn.
    + repeat split; try done. by intros s' [= <-].
    + repeat split; try done. congruence.
  - intros Hnone.
    destruct (0 <? Revision device).
    + destruct (Remove_absent s (ID device)
                  [WithVersion (int64 (Revision device))] Hnone) as (s1 & r & -> & Hsame).
      eauto.
    + destruct (Remove_absent s (ID device) [] Hnone) as (s1 & r & -> & Hsame).
      eauto.
Qed.

End ContractMap.

(** The scenario of section 8 of the specification, run on the reference
    map: revision 1 after the first [Store], revision 2 after the update,
    a conflict for the writer that still holds revision 1, and nothing
    left to load after the [Delete] at revision 2. *)
Example end_to_end :
  Revision Scenario.d1_stored = 1
  /\ atomixStore.Load Scenario.m1 "d1" = Ok (Some Scenario.d1_stored)
  /\ (atomixStore.Store Scenario.m1 Scenario.d1_moved).1.2
     = set_Revision 2 Scenario.d1_moved
  /\ (atomixStore.Store Scenario.m2 Scenario.d1_stale).2 = Some ConflictError
  /\ (atomixStore.Delete Scenario.m2 (set_Revision 2 Scenario.d1_moved)).2 = None
  /\ atomixStore.Load
       (atomixStore.Delete Scenario.m2 (set_Revision 2 Scenario.d1_moved)).1 "d1"
     = Ok None.
Proof. repeat split; vm_compute; reflexivity. Qed.


Lemma Store_put_discipline_witness :
  (atomixStore.Store LocalMap.empty Scenario.d1).2 <> Some ConflictError
  /\ exists s',
       atomixStore.Store Scenario.m2 Scenario.d1_stale
       = (s', Scenario.d1_stale, Some ConflictError)
       /\ entries s' = entries Scenario.m2.
Proof.
  split.
  - apply (proj1 (Store_put_discipline LocalMap.empty Scenario.d1
             Scenario.d1_bytes
             eq_refl ltac:(vm_compute; split; congruence))).
    reflexivity.
  - apply (proj2 (Store_put_discipline Scenario.m2 Scenario.d1_stale
             Scenario.d1_stale_bytes
             eq_refl ltac:(vm_compute; split; congruence))).
    + reflexivity.
    + intros old ver Hentry. vm_compute in Hentry.
      injection Hentry as _ <-. vm_compute. discriminate.
Defined.

Lemma Delete_discipline_witness :
  (exists s', atomixStore.Delete Scenario.m2 Scenario.d1_stale = (s', Some ConflictError)
              /\ entries s' = entries Scenario.m2)
  /\ (atomixStore.Delete Scenario.m2 Scenario.d1).2 <> Some ConflictError
  /\ (exists s', atomixStore.Delete LocalMap.empty Scenario.d1_stale = (s', None)
                 /\ entries s' = entries LocalMap.empty).
Proof.
  split; [|split].
  - apply (proj1 (proj2 (proj1 (Delete_discipline Scenario.m2 Scenario.d1_stale
             ltac:(vm_compute; split; congruence)) ltac:(reflexivity)))
             Scenario.d1_moved_bytes 2).
    + vm_compute. reflexivity.
    + vm_compute. discriminate.
  - apply (proj1 (proj2 (Delete_discipline Scenario.m2 Scenario.d1
             ltac:(vm_compute; split; congruence)))).
    reflexivity.
  - apply (proj2 (proj2 (Delete_discipline LocalMap.empty Scenario.d1_stale
             ltac:(vm_compute; split; congruence)))).
    reflexivity.
Defined.

(* ===================================================================== *)
(** ** List and Watch: the delivery goroutines *)
(* ===================================================================== *)

Section Delivery.
Context {M : Type} `{Map M}.

Lemma run_add {A B} (body : A -> Chan B -> Chan B) a b g :
  run body (a + b) g = run body b (run body a g).
Proof. revert g. induction a as [|a IH]; intros g; cbn; [done|apply IH]. Qed.

Lemma run_Returned {A B} (body : A -> Chan B -> Chan B) n ch :
  run body n (Returned ch) = Returned ch.
Proof. induction n as [|n IH]; cbn; [done|exact IH]. Qed.

(** A loop body that sends [f x] when there is one and nothing
    otherwise: after [n] rounds the first [n] items are consumed and
    their images sent, in order; the round after the last item closes the
    sink. *)
Lemma run_forwarding {A B} (body : A -> Chan B -> Chan B) (f : A -> option B) :
  (forall x ch,
     body x ch = match f x with Some y => send ch y | None => ch end) ->
  forall n mapCh ch,
    run body n (Ranging mapCh ch)
    = if (n <=? length mapCh)%nat
      then Ranging (drop n mapCh) (mkChan (sent ch ++ omap f (take n mapCh)) (closed ch))
      else Returned (mkChan (sent ch ++ omap f mapCh) true).
Proof.
  intros Hbody.
  assert (Hranging : forall n mapCh ch,
    (n <= length mapCh)%nat ->
    run body n (Ranging mapCh ch)
    = Ranging (drop n mapCh) (mkChan (sent ch ++ omap f (take n mapCh)) (closed ch))).
  { induction n as [|n IH]; intros mapCh ch Hn.
    - cbn. rewrite app_nil_r. by destruct ch.
    - destruct mapCh as [|x mapCh]; [cbn in Hn; lia|].
      cbn [run step]. rewrite IH by (cbn in Hn; lia).
      rewrite Hbody. cbn.
      destruct (f x) as [y|]; cbn; [|done].
      by rewrite <- app_assoc. }
  intros n mapCh ch.
  destruct (Nat.leb_spec n (length mapCh)) as [Hle|Hgt].
  - by apply Hranging.
  - replace n with (length mapCh + S (n - S (length mapCh)))%nat by lia.
    rewrite run_add, Hranging by lia.
    rewrite drop_all, firstn_all. cbn [run step].
    apply run_Returned.
Qed.

(** The state of the goroutine of [List] after [n] rounds. *)
Lemma run_List n mapCh ch :
  run atomixStore.List_body n (Ranging mapCh ch)
  = if (n <=? length mapCh)%nat
    then Ranging (drop n mapCh)
           (mkChan (sent ch ++ delivered (take n mapCh)) (closed ch))
    else Returned (mkChan (sent ch ++ delivered mapCh) true).
Proof.
  apply (run_forwarding atomixStore.List_body decoded).
  intros kv ch'. unfold atomixStore.List_body, decoded.
  by destruct (decodeDevice _ _ _).
Qed.

(** The same for the goroutine of [Watch]: the events of the feed are
    passed on in the order of the feed, those that do not decode left
    out. *)
Lemma run_Watch n mapCh ch :
  run atomixStore.Watch_body n (Ranging mapCh ch)
  = if (n <=? length mapCh)%nat
    then Ranging (drop n mapCh)
           (mkChan (sent ch ++ notified (take n mapCh)) (closed ch))
    else Returned (mkChan (sent ch ++ notified mapCh) true).
Proof.
  apply (run_forwarding atomixStore.Watch_body translated).
  intros event ch'. unfold atomixStore.Watch_body, translated.
  by destruct (decodeDevice _ _ _).
Qed.

(** C7.  [List] returns the error of [Entries] and starts nothing when
    the subscription fails; once [Entries] has accepted the subscription
    it returns nil with the goroutine started on the enumeration.  After
    [n] rounds of that goroutine the sink holds, in the order of the
    enumeration, the device of each of the first [n] entries that decodes,
    and nothing for an entry that does not; the sink is closed from the
    round after the last entry on, and not before. *)
Theorem List_delivery (s : M) (ch : Chan Device) :
  (forall err, Entries s = Err err -> atomixStore.List s ch = (Some err, None))
  /\ (forall mapCh,
        Entries s = Ok mapCh ->
        atomixStore.List s ch = (None, Some (Ranging mapCh ch))
        /\ forall n,
             let g := run atomixStore.List_body n (Ranging mapCh ch) in
             sent (sink g) = sent ch ++ delivered (take n mapCh)
             /\ closed (sink g) = closed ch || (length mapCh <? n)%nat).
Proof.
  unfold atomixStore.List. split.
  - by intros err ->.
  - intros mapCh ->. split; [done|]. intros n. cbv zeta. rewrite run_List.
    destruct (Nat.leb_spec n (length mapCh)) as [Hle|Hgt]; cbn [sink sent closed].
    + destruct (Nat.ltb_spec (length mapCh) n); [lia|]. by rewrite orb_false_r.
    + destruct (Nat.ltb_spec (length mapCh) n); [|lia].
      rewrite orb_true_r, firstn_all2 by lia. done.
Qed.

(** C8, amended.  The loop of [Watch] sends, for an event whose value
    decodes, an [Event] with the decoded device (id and revision from
    the key and the version of the event) and with the raw kind
    converted as a string: "inserted", "updated", "removed" and the
    empty kind become [EventInserted], [EventUpdated], [EventRemoved]
    and [EventNone]; every other raw kind is kept as it is, so that
    different raw kinds give different event types.  An event whose
    value does not decode sends nothing. *)
Theorem Watch_event_translation (event : MapEvent.t) (ch : Chan Event.t) :
  (forall device,
     decodeDevice (MapEvent.Key event) (MapEvent.Value event) (MapEvent.Version event)
     = Ok device ->
     atomixStore.Watch_body event ch
     = send ch (Event.mk (EventType_of (MapEvent.Type_ event)) device))
  /\ (forall err,
        decodeDevice (MapEvent.Key event) (MapEvent.Value event) (MapEvent.Version event)
        = Err err ->
        atomixStore.Watch_body event ch = ch)
  /\ EventType_of "inserted" = EventInserted
  /\ EventType_of "updated" = EventUpdated
  /\ EventType_of "removed" = EventRemoved
  /\ EventType_of "" = EventNone
  /\ (forall t : MapEventType, EventType_of t = t)
  /\ (forall t t' : MapEventType, EventType_of t = EventType_of t' -> t = t').
Proof.
  unfold atomixStore.Watch_body. repeat split; try done.
  - by intros device ->.
  - by intros err ->.
Qed.

(** An event about a payload that [Store] wrote is never dropped: it is
    forwarded with its kind, and with the device that was stored. *)
Lemma Watch_forwards_stored (d : Device) bytes kind key version ch :
  Device_valid d = true ->
  Marshal d = Ok bytes ->
  atomixStore.Watch_body (MapEvent.mk kind key bytes version) ch
  = send ch (Event.mk kind
               (set_Revision (uint64 version) (set_ID key d))).
Proof.
  intros Hvalid HM. unfold atomixStore.Watch_body, decodeDevice. cbn.
  by rewrite (Unmarshal_Marshal d bytes Hvalid HM).
Qed.

End Delivery.

Lemma List_delivery_witness :
  atomixStore.List Scenario.m2 (mkChan [] false)
  = (None, Some (Ranging [KeyValue.mk "d1" Scenario.d1_moved_bytes 2] (mkChan [] false)))
  /\ forall n,
       let g := run atomixStore.List_body n
                    (Ranging [KeyValue.mk "d1" Scenario.d1_moved_bytes 2] (mkChan [] false)) in
       sent (sink g)
       = [] ++ delivered (take n [KeyValue.mk "d1" Scenario.d1_moved_bytes 2])
       /\ closed (sink g) = false || (1 <? n)%nat.
Proof.
  apply (proj2 (List_delivery Scenario.m2 (mkChan [] false))).
  vm_compute. reflexivity.
Defined.

(** An enumeration with an entry that does not decode: the entry is
    skipped, its neighbours are delivered, the sink is closed after the
    last entry and not before. *)
Example List_skips_broken_entry :
  run atomixStore.List_body 3 (Ranging Scenario.mixed (mkChan [] false))
  = Ranging [] (mkChan [ mkDevice "d1" 1 "" "" "" 0 None None [];
                         mkDevice "d3" 3 "a" "" "" 0 None None [] ] false)
  /\ run atomixStore.List_body 4 (Ranging Scenario.mixed (mkChan [] false))
     = Returned (mkChan [ mkDevice "d1" 1 "" "" "" 0 None None [];
                          mkDevice "d3" 3 "a" "" "" 0 None None [] ] true).
Proof. split; vm_compute; reflexivity. Qed.

(** C8, as claimed, fails: an event of the kind "expired" is passed on
    with the event type "expired", which is not [EventNone]. *)
Lemma unknown_kind_is_kept :
  sent (atomixStore.Watch_body (MapEvent.mk "expired" "d1" Scenario.d1_bytes 3)
                               (mkChan [] false))
  = [Event.mk "expired" (mkDevice "d1" 3 "10.0.0.1:830" "" "" 0 None None [])]
  /\ ~ unknown_kind_is_None.
Proof.
  split; [vm_compute; reflexivity|].
  intros Hclaim.
  specialize (Hclaim "expired" ltac:(discriminate) ltac:(discriminate) ltac:(discriminate)).
  discriminate Hclaim.
Qed.

Lemma Watch_event_translation_witness :
  atomixStore.Watch_body (MapEvent.mk "updated" "d1" Scenario.d1_moved_bytes 2)
                         (mkChan [] false)
  = send (mkChan [] false)
         (Event.mk EventUpdated (mkDevice "d1" 2 "10.0.0.2:830" "" "" 0 None None [])).
Proof.
  apply (proj1 (Watch_event_translation
                  (MapEvent.mk "updated" "d1" Scenario.d1_moved_bytes 2) (mkChan [] false))).
  vm_compute. reflexivity.
Defined.

(* ===================================================================== *)
(** * Further properties of the store *)
(* ===================================================================== *)

(** ** How Load, Store and Delete compose *)

Section Composition.
Context {M : Type} `{MapContract M}.

(** What a successful [Delete] has done to the map. *)
Lemma Delete_success (s s' : M) (device : Device) :
  atomixStore.Delete s device = (s', None) ->
  entries s' = delete (ID device) (entries s).
Proof.
  unfold atomixStore.Delete. destruct (0 <? Revision device).
  - destruct (Remove s (ID device) _) as [s1 [r|e]] eqn:E; [|discriminate].
    intros [= <-]. by apply Remove_expected in E as [_ ->].
  - destruct (Remove s (ID device) []) as [s1 [r|e]] eqn:E; [|discriminate].
    intros [= <-]. by apply Remove_unconditional in E.
Qed.

(** X1.  A device that [Store] has written is the device that [Load]
    reads back under its id, as [Store] handed it back to the caller
    (revision included), provided the device is valid and the map answers
    the [Get]. *)
Theorem Store_then_Load (s s' : M) (device device' : Device) r :
  Device_valid device = true ->
  atomixStore.Store s device = (s', device', None) ->
  Get s' (ID device) = Ok r ->
  atomixStore.Load s' (ID device) = Ok (Some device').
Proof. apply Load_after_Store. Qed.

(** X2.  After a successful [Delete], [Load] of the device's id finds
    nothing (the empty result, no error) whenever the map answers the
    [Get]; the entries of all other ids are as they were. *)
Theorem Delete_then_Load (s s' : M) (device : Device) :
  atomixStore.Delete s device = (s', None) ->
  (forall r, Get s' (ID device) = Ok r ->
             atomixStore.Load s' (ID device) = Ok None)
  /\ (forall k, k <> ID device -> entries s' !! k = entries s !! k).
Proof.
  intros Hdel%Delete_success. split.
  - intros r Hget. unfold atomixStore.Load. rewrite Hget.
    apply Get_entries in Hget. rewrite Hdel, lookup_delete_eq in Hget.
    by subst r.
  - intros k Hk. rewrite Hdel. by apply lookup_delete_ne.
Qed.

(** X3.  A successful [Store] writes the entry of [device.ID] and no
    other: the map afterwards is the map before with that one entry set
    to the payload of the device, at the version that became the
    caller's revision. *)
Theorem Store_writes_one_entry (s s' : M) (device device' : Device) :
  atomixStore.Store s device = (s', device', None) ->
  exists bytes ver,
    Marshal device = Ok bytes
    /\ Revision device' = uint64 ver
    /\ entries s' = <[ID device := (bytes, ver)]> (entries s)
    /\ forall k, k <> ID device -> entries s' !! k = entries s !! k.
Proof.
  unfold atomixStore.Store.
  destruct (Marshal device) as [bytes|e]; [|discriminate].
  assert (Hframe : forall (m : gmap string (list byte * Z)) v k,
            k <> ID device -> <[ID device := v]> m !! k = m !! k).
  { intros m v k Hk. by apply lookup_insert_ne. }
  destruct (Revision device =? 0).
  - destruct (Put s (ID device) bytes []) as [s1 [kv|e]] eqn:E; [|discriminate].
    intros [= <- <-]. apply Put_unconditional in E as (_ & _ & ->).
    exists bytes, (KeyValue.Version kv). repeat split; auto.
  - destruct (Put s (ID device) bytes _) as [s1 [kv|e]] eqn:E; [|discriminate].
    intros [= <- <-]. apply Put_expected in E as (_ & _ & _ & ->).
    exists bytes, (KeyValue.Version kv). repeat split; auto.
Qed.

(** X4.  A device that [Load] returns carries the id it was asked for and,
    as revision, the current version of that id's entry; the other fields
    are those of the stored payload. *)
Theorem Load_identity (s : M) (deviceID : string) (device : Device) :
  atomixStore.Load s deviceID = Ok (Some device) ->
  ID device = deviceID
  /\ exists value ver payload,
       entries s !! deviceID = Some (value, ver)
       /\ Revision device = uint64 ver
       /\ Unmarshal value = Ok payload
       /\ device = set_Revision (uint64 ver) (set_ID deviceID payload).
Proof.
  unfold atomixStore.Load.
  destruct (Get s deviceID) as [[kv|]|e] eqn:Hget; try discriminate.
  apply Get_entries in Hget.
  destruct (entries s !! deviceID) as [[value ver]|] eqn:Hentry; [|discriminate].
  injection Hget as ->. cbn. unfold decodeDevice.
  destruct (Unmarshal value) as [payload|e] eqn:Hdec; [|discriminate].
  intros [= <-]. split; [done|].
  exists value, ver, payload. done.
Qed.

End Composition.

Lemma Store_then_Load_witness :
  atomixStore.Load Scenario.m1 "d1" = Ok (Some Scenario.d1_stored).
Proof.
  apply (Store_then_Load LocalMap.empty Scenario.m1 Scenario.d1 Scenario.d1_stored
           (Some (KeyValue.mk "d1" Scenario.d1_bytes 1))).
  - vm_compute. reflexivity.
  - vm_compute. reflexivity.
  - vm_compute. reflexivity.
Defined.

Lemma Delete_then_Load_witness :
  (forall r, Get Cases.m3 "d1" = Ok r -> atomixStore.Load Cases.m3 "d1" = Ok None)
  /\ (forall k, k <> "d1" -> entries Cases.m3 !! k = entries Scenario.m2 !! k).
Proof.
  apply (Delete_then_Load Scenario.m2 Cases.m3 Cases.d1_moved_stored).
  vm_compute. reflexivity.
Defined.

Lemma Store_writes_one_entry_witness :
  exists bytes ver,
    Marshal Scenario.d1_moved = Ok bytes
    /\ Revision Cases.d1_moved_stored = uint64 ver
    /\ entries Scenario.m2 = <["d1" := (bytes, ver)]> (entries Scenario.m1)
    /\ forall k, k <> "d1" -> entries Scenario.m2 !! k = entries Scenario.m1 !! k.
Proof.
  apply (Store_writes_one_entry Scenario.m1 Scenario.m2 Scenario.d1_moved
           Cases.d1_moved_stored).
  vm_compute. reflexivity.
Defined.

Lemma Load_identity_witness :
  ID Cases.d1_moved_stored = "d1"
  /\ exists value ver payload,
       entries Scenario.m2 !! "d1" = Some (value, ver)
       /\ Revision Cases.d1_moved_stored = uint64 ver
       /\ Unmarshal value = Ok payload
       /\ Cases.d1_moved_stored = set_Revision (uint64 ver) (set_ID "d1" payload).
Proof.
  apply (Load_identity Scenario.m2 "d1" Cases.d1_moved_stored).
  vm_compute. reflexivity.
Defined.

(** ** The revision as the expected version *)

Section Token.
Context {M : Type} `{Map M}.

Lemma uint64_zero_iff v : int64_range v -> (uint64 v = 0 <-> v = 0).
Proof.
  intros Hv. split; [|by intros ->].
  intros H0. rewrite <- (int64_uint64 v Hv), H0. reflexivity.
Qed.

(** X5.  A device whose revision was taken from a map version [v] (an
    [int64], converted by [Revision(v)] as [Store] and [decodeDevice] do)
    makes [Store] and [Delete] expect exactly the version [v], also when
    [v] is negative; only the version 0 turns both into unconditional
    calls. *)
Theorem revision_is_expected_version (s : M) (device : Device) (bytes : list byte) (v : Z) :
  int64_range v ->
  Revision device = uint64 v ->
  Marshal device = Ok bytes ->
  let opts := if v =? 0 then [] else [WithVersion v] in
  (atomixStore.Store s device).1.1 = (Put s (ID device) bytes opts).1
  /\ (atomixStore.Store s device).2 = error_of (Put s (ID device) bytes opts).2
  /\ Delete_is s device opts.
Proof.
  intros Hv Hrev HM. cbv zeta.
  unfold Delete_is, atomixStore.Store, atomixStore.Delete. rewrite HM, Hrev.
  pose proof (uint64_zero_iff v Hv) as Hzero.
  pose proof (uint64_is_range v) as Hrange. unfold uint64_range in Hrange.
  rewrite (int64_uint64 v Hv).
  destruct (Z.eqb_spec v 0) as [->|Hne].
  - cbn [uint64 Z.modulo Z.eqb Z.ltb Z.compare]. change (uint64 0) with 0.
    cbn [Z.eqb Z.ltb Z.compare].
    destruct (Put s (ID device) bytes []) as [s1 [kv|e]];
      destruct (Remove s (ID device) []) as [s2 r]; done.
  - destruct (Z.eqb_spec (uint64 v) 0) as [H0|_]; [by apply Hzero in H0|].
    destruct (Z.ltb_spec 0 (uint64 v)) as [_|Hle];
      [|assert (uint64 v = 0) as H0%Hzero by lia; done].
    destruct (Put s (ID device) bytes [WithVersion v]) as [s1 [kv|e]];
      destruct (Remove s (ID device) [WithVersion v]) as [s2 r]; done.
Qed.

End Token.

Lemma revision_is_expected_version_witness :
  (atomixStore.Store Scenario.m2 Scenario.d1_stale).1.1
  = (Put Scenario.m2 "d1" Scenario.d1_stale_bytes [WithVersion 1]).1
  /\ (atomixStore.Store Scenario.m2 Scenario.d1_stale).2
     = error_of (Put Scenario.m2 "d1" Scenario.d1_stale_bytes [WithVersion 1]).2
  /\ Delete_is Scenario.m2 Scenario.d1_stale [WithVersion 1].
Proof.
  apply (revision_is_expected_version Scenario.m2 Scenario.d1_stale
           Scenario.d1_stale_bytes 1).
  - vm_compute. split; congruence.
  - reflexivity.
  - reflexivity.
Defined.

(** ** What Store refuses before it reaches the map *)

Section Refusal.
Context {M : Type} `{Map M}.





End Refusal.


(** ** What List and Watch put on the sink *)

Section Sink.
Context {M : Type} `{Map M}.

Lemma decoded_Some kv d :
  decoded kv = Some d ->
  exists payload,
    Unmarshal (KeyValue.Value kv) = Ok payload
    /\ d = stamped (KeyValue.Key kv) (KeyValue.Version kv) payload.
Proof.
  unfold decoded, decodeDevice, stamped.
  destruct (Unmarshal (KeyValue.Value kv)) as [payload|e]; [|done].
  intros [= <-]. by exists payload.
Qed.

Lemma ID_stamped key version d : ID (stamped key version d) = key.
Proof. by destruct d. Qed.

Lemma Revision_stamped key version d : Revision (stamped key version d) = uint64 version.
Proof. by destruct d. Qed.

Lemma delivered_ids kvs : (ID <$> delivered kvs) `sublist_of` (KeyValue.Key <$> kvs).
Proof.
  unfold delivered. induction kvs as [|kv kvs IH]; cbn; [constructor|].
  destruct (decoded kv) as [d|] eqn:Hd; cbn.
  - apply decoded_Some in Hd as (payload & _ & ->). rewrite ID_stamped.
    by apply sublist_skip.
  - by apply sublist_cons.
Qed.

Lemma delivered_origin kvs d :
  d ∈ delivered kvs ->
  exists kv payload,
    kv ∈ kvs
    /\ Unmarshal (KeyValue.Value kv) = Ok payload
    /\ d = stamped (KeyValue.Key kv) (KeyValue.Version kv) payload.
Proof.
  unfold delivered. intros (kv & Hin & Hd)%list_elem_of_omap.
  apply decoded_Some in Hd as (payload & Hp & ->). by exists kv, payload.
Qed.

(** X7.  Whatever the goroutine of [List] has put on a fresh sink after
    any number of rounds comes from the enumeration: the ids sent are a
    subsequence of the keys enumerated (same order, nothing invented,
    nothing sent twice for one entry), and each device sent is the decoded
    value of an enumerated entry with that entry's key as id and that
    entry's version, converted to a [Revision], as revision. *)
Theorem List_sends_enumerated (mapCh : list KeyValue.t) (n : nat) :
  let g := run atomixStore.List_body n (Ranging mapCh (mkChan [] false)) in
  (ID <$> sent (sink g)) `sublist_of` (KeyValue.Key <$> mapCh)
  /\ (length (sent (sink g)) <= Nat.min n (length mapCh))%nat
  /\ forall d, d ∈ sent (sink g) ->
       exists kv payload,
         kv ∈ mapCh
         /\ Unmarshal (KeyValue.Value kv) = Ok payload
         /\ ID d = KeyValue.Key kv
         /\ Revision d = uint64 (KeyValue.Version kv)
         /\ d = stamped (KeyValue.Key kv) (KeyValue.Version kv) payload.
Proof.
  cbv zeta. rewrite run_List.
  assert (Hlen : forall kvs, (length (delivered kvs) <= length kvs)%nat).
  { intros kvs. unfold delivered. induction kvs as [|kv kvs IH]; cbn; [lia|].
    destruct (decoded kv); cbn; lia. }
  assert (Horigin : forall kvs d, d ∈ delivered kvs -> kvs `sublist_of` mapCh ->
    exists kv payload,
      kv ∈ mapCh /\ Unmarshal (KeyValue.Value kv) = Ok payload
      /\ ID d = KeyValue.Key kv /\ Revision d = uint64 (KeyValue.Version kv)
      /\ d = stamped (KeyValue.Key kv) (KeyValue.Version kv) payload).
  { intros kvs d Hd Hsub.
    apply delivered_origin in Hd as (kv & payload & Hin & Hp & ->).
    exists kv, payload. rewrite ID_stamped, Revision_stamped.
    repeat split; try done. eapply sublist_submseteq, elem_of_submseteq in Hsub; eauto. }
  destruct (Nat.leb_spec n (length mapCh)) as [Hle|Hgt]; cbn [sink sent app].
  - split; [|split].
    + etrans; [apply delivered_ids|]. apply fmap_sublist, sublist_take.
    + specialize (Hlen (take n mapCh)). rewrite length_take in Hlen. lia.
    + intros d Hd. apply (Horigin (take n mapCh) d Hd), sublist_take.
  - split; [|split].
    + apply delivered_ids.
    + specialize (Hlen mapCh). lia.
    + intros d Hd. by apply (Horigin mapCh d Hd).
Qed.

(** Entries whose values are the payloads of valid devices all decode. *)
Lemma delivered_stored kvs ds :
  Forall2 (fun kv d => Device_valid d = true /\ Marshal d = Ok (KeyValue.Value kv)) kvs ds ->
  delivered kvs
  = zip_with (fun kv d => stamped (KeyValue.Key kv) (KeyValue.Version kv) d) kvs ds.
Proof.
  unfold delivered. induction 1 as [|kv d kvs ds [Hvalid HM] _ IH]; [done|].
  cbn. unfold decoded at 1, decodeDevice.
  rewrite (Unmarshal_Marshal d _ Hvalid HM). cbn. by rewrite IH.
Qed.

(** X8.  [List] drops nothing that [Store] wrote.  When every enumerated
    entry holds the payload that [proto.Marshal] made of a valid device,
    the goroutine of [List] sends after [n] rounds one device for each of
    the first [n] entries: the device that was encoded, with the key of
    the entry as id and the version of the entry as revision. *)
Theorem List_delivers_stored (mapCh : list KeyValue.t) (ds : list Device)
    (ch : Chan Device) (n : nat) :
  Forall2 (fun kv d => Device_valid d = true /\ Marshal d = Ok (KeyValue.Value kv))
          mapCh ds ->
  sent (sink (run atomixStore.List_body n (Ranging mapCh ch)))
  = sent ch
    ++ take n (zip_with (fun kv d => stamped (KeyValue.Key kv) (KeyValue.Version kv) d)
                        mapCh ds).
Proof.
  intros Hall. rewrite run_List.
  destruct (Nat.leb_spec n (length mapCh)) as [Hle|Hgt]; cbn [sink sent].
  - rewrite zip_with_take.
    f_equal. apply delivered_stored. by apply Forall2_take.
  - rewrite (delivered_stored _ _ Hall). f_equal. symmetry. apply take_ge.
    rewrite length_zip_with. lia.
Qed.

(** X9.  [Watch] returns the error of the map's [Watch] and starts
    nothing when the subscription fails; otherwise it returns nil with
    the goroutine started on the feed, subscribed with [WithReplay].
    After [n] rounds the sink holds the translations of the first [n]
    events that decode, in the order of the feed, and it is closed from
    the round after the last event on and not before. *)
Theorem Watch_delivery (s : M) (ch : Chan Event.t) :
  (forall err, Watch s [WithReplay] = Err err -> atomixStore.Watch s ch = (Some err, None))
  /\ (forall mapCh,
        Watch s [WithReplay] = Ok mapCh ->
        atomixStore.Watch s ch = (None, Some (Ranging mapCh ch))
        /\ forall n,
             let g := run atomixStore.Watch_body n (Ranging mapCh ch) in
             sent (sink g) = sent ch ++ notified (take n mapCh)
             /\ closed (sink g) = closed ch || (length mapCh <? n)%nat).
Proof.
  unfold atomixStore.Watch. split.
  - by intros err ->.
  - intros mapCh ->. split; [done|]. intros n. cbv zeta. rewrite run_Watch.
    destruct (Nat.leb_spec n (length mapCh)) as [Hle|Hgt]; cbn [sink sent closed].
    + destruct (Nat.ltb_spec (length mapCh) n); [lia|]. by rewrite orb_false_r.
    + destruct (Nat.ltb_spec (length mapCh) n); [|lia].
      rewrite orb_true_r, firstn_all2 by lia. done.
Qed.

Lemma notified_stored events ds :
  Forall2 (fun event d => Device_valid d = true /\ Marshal d = Ok (MapEvent.Value event))
          events ds ->
  notified events
  = zip_with (fun event d =>
                Event.mk (MapEvent.Type_ event)
                  (stamped (MapEvent.Key event) (MapEvent.Version event) d))
             events ds.
Proof.
  unfold notified. induction 1 as [|event d events ds [Hvalid HM] _ IH]; [done|].
  cbn. unfold translated at 1, decodeDevice.
  rewrite (Unmarshal_Marshal d _ Hvalid HM). cbn. by rewrite IH.
Qed.

(** X10.  [Watch] drops no event about a device that [Store] wrote.  When
    every event of the feed carries the payload of a valid device, the
    goroutine sends after [n] rounds one [Event] for each of the first
    [n] events, each with the kind of the raw event unchanged and with
    the encoded device under the key and the version of the event. *)
Theorem Watch_delivers_stored (mapCh : list MapEvent.t) (ds : list Device)
    (ch : Chan Event.t) (n : nat) :
  Forall2 (fun event d => Device_valid d = true /\ Marshal d = Ok (MapEvent.Value event))
          mapCh ds ->
  sent (sink (run atomixStore.Watch_body n (Ranging mapCh ch)))
  = sent ch
    ++ take n (zip_with (fun event d =>
                           Event.mk (MapEvent.Type_ event)
                             (stamped (MapEvent.Key event) (MapEvent.Version event) d))
                        mapCh ds).
Proof.
  intros Hall. rewrite run_Watch.
  destruct (Nat.leb_spec n (length mapCh)) as [Hle|Hgt]; cbn [sink sent].
  - rewrite zip_with_take.
    f_equal. apply notified_stored. by apply Forall2_take.
  - rewrite (notified_stored _ _ Hall). f_equal. symmetry. apply take_ge.
    rewrite length_zip_with. lia.
Qed.

End Sink.

Lemma List_delivers_stored_witness :
  sent (sink (run atomixStore.List_body 3 (Ranging Cases.stored (mkChan [] false))))
  = [] ++ take 3 (zip_with (fun kv d => stamped (KeyValue.Key kv) (KeyValue.Version kv) d)
                    Cases.stored [Scenario.d1; Scenario.d1_moved]).
Proof.
  apply (List_delivers_stored Cases.stored [Scenario.d1; Scenario.d1_moved]
           (mkChan [] false) 3).
  repeat constructor.
Defined.

Lemma Watch_delivery_witness :
  atomixStore.Watch Scenario.m2 (mkChan [] false)
  = (None, Some (Ranging [MapEvent.mk "inserted" "d1" Scenario.d1_moved_bytes 2]
                         (mkChan [] false)))
  /\ forall n,
       let g := run atomixStore.Watch_body n
                    (Ranging [MapEvent.mk "inserted" "d1" Scenario.d1_moved_bytes 2]
                             (mkChan [] false)) in
       sent (sink g)
       = [] ++ notified (take n [MapEvent.mk "inserted" "d1" Scenario.d1_moved_bytes 2])
       /\ closed (sink g) = false || (1 <? n)%nat.
Proof.
  apply (proj2 (Watch_delivery Scenario.m2 (mkChan [] false))).
  vm_compute. reflexivity.
Defined.

Lemma Watch_delivers_stored_witness :
  sent (sink (run atomixStore.Watch_body 2 (Ranging Cases.feed (mkChan [] false))))
  = [] ++ take 2 (zip_with (fun event d =>
                      Event.mk (MapEvent.Type_ event)
                        (stamped (MapEvent.Key event) (MapEvent.Version event) d))
                    Cases.feed [Scenario.d1; Scenario.d1_moved; Scenario.d1_moved]).
Proof.
  apply (Watch_delivers_stored Cases.feed
           [Scenario.d1; Scenario.d1_moved; Scenario.d1_moved] (mkChan [] false) 2).
  repeat constructor.
Defined.

(** * The northbound messages on the wire *)

Section Northbound.

Ltac tag_fact :=
  first [ reflexivity
        | unfold uint64_range; split; by vm_compute ].

Ltac split_valid H :=
  repeat match type of H with
         | (_ && _) = true => let H' := fresh "Hv" in apply andb_true_iff in H as [H H']
         end.

Ltac scalar_fields :=
  repeat (erewrite marshal_fields_step;
          [|cbn [mf_marshaler];
            first [ apply marshal_string; assumption
                  | apply marshal_varint
                  | apply marshal_bool ]]).













End Northbound.

(** * The names of the event types *)

Section EnumNames.

(** A decimal numeral begins with a digit or with the minus sign, which
    come before the letters in the ASCII table. *)
Lemma pretty_N_go_head x : forall s,
  (forall c t, s = String c t -> (Ascii.nat_of_ascii c < 58)%nat) ->
  forall c t, pretty_N_go x s = String c t -> (Ascii.nat_of_ascii c < 58)%nat.
Proof.
  induction (N.lt_wf_0 x) as [x _ IH]; intros s Hs c t.
  assert (x = 0 \/ 0 < x)%N as [->|Hpos] by lia.
  - rewrite pretty_N_go_0. apply Hs.
  - rewrite pretty_N_go_step by done. apply IH.
    + by apply N.div_lt.
    + intros c' t' [= <- <-]. unfold pretty_N_char.
      repeat case_match; apply Nat.ltb_lt; by vm_compute.
Qed.

Lemma Itoa_head v c t : pb.Itoa v = String c t -> (Ascii.nat_of_ascii c < 58)%nat.
Proof.
  unfold pb.Itoa, pretty, pretty_Z. destruct v as [|p|p].
  - intros [= <- <-]. apply Nat.ltb_lt. by vm_compute.
  - unfold pretty, pretty_positive, pretty, pretty_N.
    case_decide; [done|]. by apply pretty_N_go_head.
  - intros [= <- _]. apply Nat.ltb_lt. by vm_compute.
Qed.

Lemma name_lookup (x : Z) :
  pb.ListResponse_Type_name !! x
  = if decide (x = 0) then Some "NONE"
    else if decide (x = 1) then Some "ADDED"
    else if decide (x = 2) then Some "UPDATED"
    else if decide (x = 3) then Some "REMOVED"
    else None.
Proof.
  unfold pb.ListResponse_Type_name.
  repeat (case_decide; [subst; by vm_compute|]).
  by rewrite !lookup_insert_ne, lookup_empty.
Qed.

Lemma value_lookup (s : string) :
  pb.ListResponse_Type_value !! s
  = if decide (s = "NONE") then Some 0
    else if decide (s = "ADDED") then Some 1
    else if decide (s = "UPDATED") then Some 2
    else if decide (s = "REMOVED") then Some 3
    else None.
Proof.
  unfold pb.ListResponse_Type_value.
  repeat (case_decide; [subst; by vm_compute|]).
  by rewrite !lookup_insert_ne, lookup_empty.
Qed.

Lemma String_unnamed x :
  ~ (0 <= x <= 3) -> pb.ListResponse_Type_String x = pb.Itoa x.
Proof.
  intros Hx. unfold pb.ListResponse_Type_String, pb.EnumName. rewrite name_lookup.
  repeat (case_decide; [lia|]). done.
Qed.

Lemma String_named x :
  0 <= x <= 3 -> pb.ListResponse_Type_name !! x = Some (pb.ListResponse_Type_String x).
Proof.
  intros Hx. unfold pb.ListResponse_Type_String, pb.EnumName.
  assert (x = 0 \/ x = 1 \/ x = 2 \/ x = 3) as [-> | [-> | [-> | ->]]] by lia; by vm_compute.
Qed.

Lemma Itoa_not_a_name x s v :
  pb.ListResponse_Type_value !! s = Some v -> pb.Itoa x <> s.
Proof.
  rewrite value_lookup. intros Hs Hx.
  repeat (case_decide;
          [subst s; apply Itoa_head, Nat.ltb_lt in Hx; by vm_compute in Hx|]).
  discriminate Hs.
Qed.

(** X13.  The two tables of [ListResponse_Type] are inverse to each
    other.  [String] maps different values to different strings: the four
    constants to their names, every other value to its decimal numeral,
    which is never one of the names, so that only for a named value the
    name table's answer leads back through the value table. *)
Theorem ListResponse_Type_names :
  (forall v s,
     pb.ListResponse_Type_name !! v = Some s <-> pb.ListResponse_Type_value !! s = Some v)
  /\ (forall x y,
        pb.ListResponse_Type_String x = pb.ListResponse_Type_String y -> x = y)
  /\ (forall x,
        pb.ListResponse_Type_value !! pb.ListResponse_Type_String x
        = if decide (0 <= x <= 3) then Some x else None).
Proof.
  assert (Hinv : forall v s,
    pb.ListResponse_Type_name !! v = Some s <-> pb.ListResponse_Type_value !! s = Some v).
  { intros v s. rewrite name_lookup, value_lookup. split.
    - repeat (case_decide; [intros [= <-]; subst v; by vm_compute|]). done.
    - repeat (case_decide; [intros [= <-]; subst s; by vm_compute|]). done. }
  assert (Hback : forall x,
    pb.ListResponse_Type_value !! pb.ListResponse_Type_String x
    = if decide (0 <= x <= 3) then Some x else None).
  { intros x. case_decide as Hx.
    - apply Hinv. by apply String_named.
    - rewrite String_unnamed by exact Hx.
      destruct (pb.ListResponse_Type_value !! pb.Itoa x) as [v|] eqn:E; [|done].
      by destruct (Itoa_not_a_name x _ v E). }
  split; [exact Hinv|]. split; [|exact Hback].
  intros x y Heq.
  pose proof (Hback x) as Hx. pose proof (Hback y) as Hy. rewrite Heq in Hx.
  rewrite Hx in Hy. repeat case_decide; try congruence.
  rewrite !String_unnamed in Heq by done.
  by apply (inj pretty) in Heq.
Qed.

End EnumNames.



(** * Writers that race *)

Section Race.
Context {M : Type} `{MapContract M}.

(** X14.  Optimistic locking keeps the first write.  After a successful
    [Store] of a device, a second writer whose device has the same id but
    carries another revision than the one just handed out (and not 0) is
    refused: its [Store] and its [Delete] both fail with ConflictError,
    its device is left as it was, and the content of the map stays what
    the first write made it. *)
Theorem stale_writer_conflicts (s s1 : M) (dA dA' dB : Device) (bytes : list byte) :
  atomixStore.Store s dA = (s1, dA', None) ->
  ID dB = ID dA ->
  uint64_range (Revision dB) ->
  Revision dB <> 0 ->
  Revision dB <> Revision dA' ->
  Marshal dB = Ok bytes ->
  (exists s2, atomixStore.Store s1 dB = (s2, dB, Some ConflictError)
              /\ entries s2 = entries s1)
  /\ (exists s2, atomixStore.Delete s1 dB = (s2, Some ConflictError)
                 /\ entries s2 = entries s1).
Proof.
  intros HA Hid Hrange Hne0 Hne HM.
  apply Store_success in HA as (bytesA & kv & _ & _ & -> & Hentry).
  cbn in Hne. rewrite <- Hid in Hentry.
  assert (Hver : KeyValue.Version kv <> int64 (Revision dB)).
  { intros Heq. apply Hne. rewrite Heq. symmetry. by apply uint64_int64. }
  split.
  - destruct (Put_conflict s1 (ID dB) bytes (int64 (Revision dB))) as (s2 & HP & Hsame).
    { intros old. rewrite Hentry. congruence. }
    exists s2. split; [|exact Hsame].
    unfold atomixStore.Store. rewrite HM.
    destruct (Z.eqb_spec (Revision dB) 0) as [|_]; [done|].
    by rewrite HP.
  - destruct (Remove_conflict s1 (ID dB) (int64 (Revision dB)) bytesA (KeyValue.Version kv)
                Hentry Hver) as (s2 & HR & Hsame).
    exists s2. split; [|exact Hsame].
    unfold atomixStore.Delete. unfold uint64_range in Hrange.
    destruct (Z.ltb_spec 0 (Revision dB)) as [_|]; [|lia].
    by rewrite HR.
Qed.

End Race.

Lemma stale_writer_conflicts_witness :
  (exists s2, atomixStore.Store Scenario.m1 Cases.d1_late
              = (s2, Cases.d1_late, Some ConflictError)
              /\ entries s2 = entries Scenario.m1)
  /\ (exists s2, atomixStore.Delete Scenario.m1 Cases.d1_late = (s2, Some ConflictError)
                 /\ entries s2 = entries Scenario.m1).
Proof.
  apply (stale_writer_conflicts LocalMap.empty Scenario.m1 Scenario.d1 Scenario.d1_stored
           Cases.d1_late (Scenario.payload Cases.d1_late)).
  - vm_compute. reflexivity.
  - reflexivity.
  - unfold uint64_range. vm_compute. split; congruence.
  - vm_compute. congruence.
  - vm_compute. congruence.
  - vm_compute. reflexivity.
Defined.

(** * Payloads identify devices *)



(** * Fields from a newer schema *)

Section UnknownFields.

Ltac tag_fact :=
  first [ reflexivity
        | unfold uint64_range; split; by vm_compute ].

Ltac split_valid H :=
  repeat match type of H with
         | (_ && _) = true => let H' := fresh "Hv" in apply andb_true_iff in H as [H H']
         end.








End UnknownFields.


